(** * SelfieStick: the tilt filter and the shot sequencer of SelfieStick.ino

    The sketch is embedded as pure functions over an explicit record of its
    global and function-static variables.  The two readings the sketch takes
    from its environment, [digitalRead(TILT_PIN)] and [millis()], become
    arguments of the functions that perform them.  Reading [LED_PINS] outside
    its bounds has no defined result in C++, so the functions that index the
    array return [option], with [None] for such a read.  The filter computes
    on [float]: its operations are those of [SpecFloat] at the parameters of
    binary32, each one rounding to nearest, ties to even. *)

From Stdlib Require Import ZArith Lia Bool.
From Stdlib Require Import Floats.SpecFloat.
From stdpp Require Import base option gmap list.

Local Open Scope Z_scope.

(** ** Machine arithmetic *)

(** [unsigned long] is 32 bits wide on the boards the sketch targets. *)
Definition ULONG_BITS : Z := 32.
Definition wrap32 (z : Z) : Z := z mod 2 ^ ULONG_BITS.

(** [now - timer] on two [unsigned long] values. *)
Definition elapsed (now timer : Z) : Z := wrap32 (now - timer).

(** [float] is IEEE-754 binary32: 24 bits of precision, exponents below 128. *)
Definition f32_prec : Z := 24.
Definition f32_emax : Z := 128.
Definition f32_add : spec_float -> spec_float -> spec_float := SFadd f32_prec f32_emax.
Definition f32_sub : spec_float -> spec_float -> spec_float := SFsub f32_prec f32_emax.
Definition f32_mul : spec_float -> spec_float -> spec_float := SFmul f32_prec f32_emax.
(** [a >= b] and [a <= b] on floats; both are false when either side is a NaN. *)
Definition f32_ge (a b : spec_float) : bool := SFleb b a.
Definition f32_le (a b : spec_float) : bool := SFleb a b.
Definition f32_lt (a b : spec_float) : bool := SFltb a b.

Definition f32_zero : spec_float := S754_zero false.
Definition f32_one : spec_float := S754_finite false 8388608 (-23).
Definition f32_valid : spec_float -> bool := valid_binary f32_prec f32_emax.

(** [(float) digitalRead(pin)]: the read yields HIGH (1) or LOW (0). *)
Definition float_of_level (raw : bool) : spec_float :=
  if raw then f32_one else f32_zero.

(** ** The sketch's constants *)

Inductive States : Set :=
  | WAIT_FOR_LIFT
  | BLINK_LEDS
  | TRIGGER_SHOT
  | SHOT_DONE
  | PAUSE.

#[global] Instance States_eq_dec : EqDecision States.
Proof. solve_decision. Defined.

Inductive PinMode : Set := INPUT_PULLUP | OUTPUT.

Definition HIGH : bool := true.
Definition LOW : bool := false.

(** The header of the sketch asks the user to adjust pins, timings and filter
    constants, so they are gathered in a record; [sketch_config] below holds
    the values the file ships with. *)
Record Config : Type := mkConfig {
  TILT_PIN : Z;
  RELAIS_PIN : Z;
  LED_PINS : list Z;
  BLINK_SEQUENCE : Z;
  AFTER_LAST_LED : Z;
  RELAIS_TRIGGER_TIME : Z;
  PAUSE_AFTER_SHOT : Z;
  LOW_PASS : spec_float;
  THRESHOLD_HIGH : spec_float;
  THRESHOLD_LOW : spec_float
}.

(** [sizeof(LED_PINS)/sizeof( *LED_PINS)] *)
Definition LED_COUNT (cfg : Config) : Z := Z.of_nat (length (LED_PINS cfg)).

(** 0.5f, 0.7f and 0.3f as binary32 values (0x3F000000, 0x3F333333, 0x3E99999A). *)
Definition f32_0_5 : spec_float := S754_finite false 8388608 (-24).
Definition f32_0_7 : spec_float := S754_finite false 11744051 (-24).
Definition f32_0_3 : spec_float := S754_finite false 10066330 (-25).

Definition sketch_config : Config :=
  {| TILT_PIN := 12;
     RELAIS_PIN := 3;
     LED_PINS := [4; 5; 6];
     BLINK_SEQUENCE := 1500;
     AFTER_LAST_LED := 500;
     RELAIS_TRIGGER_TIME := 20;
     PAUSE_AFTER_SHOT := 5000;
     LOW_PASS := f32_0_5;
     THRESHOLD_HIGH := f32_0_7;
     THRESHOLD_LOW := f32_0_3 |}.

(** ** The sketch's variables *)

Record Sketch : Type := mkSketch {
  state : States;              (* global [state] *)
  tilted : bool;               (* static of [isTilted] *)
  tiltLevel : spec_float;      (* static of [isTilted] *)
  ledIndex : Z;                (* static of [shotCycle] *)
  timer : Z;                   (* static of [shotCycle] *)
  modes : gmap Z PinMode;      (* direction of each pin *)
  pins : gmap Z bool           (* level last written to each pin *)
}.

Definition set_state (st : States) (s : Sketch) : Sketch :=
  mkSketch st (tilted s) (tiltLevel s) (ledIndex s) (timer s) (modes s) (pins s).
Definition set_filter (t : bool) (lvl : spec_float) (s : Sketch) : Sketch :=
  mkSketch (state s) t lvl (ledIndex s) (timer s) (modes s) (pins s).
Definition set_ledIndex (i : Z) (s : Sketch) : Sketch :=
  mkSketch (state s) (tilted s) (tiltLevel s) i (timer s) (modes s) (pins s).
Definition set_timer (t : Z) (s : Sketch) : Sketch :=
  mkSketch (state s) (tilted s) (tiltLevel s) (ledIndex s) t (modes s) (pins s).

Definition pinMode (pin : Z) (m : PinMode) (s : Sketch) : Sketch :=
  mkSketch (state s) (tilted s) (tiltLevel s) (ledIndex s) (timer s)
           (<[pin := m]> (modes s)) (pins s).
Definition digitalWrite (pin : Z) (v : bool) (s : Sketch) : Sketch :=
  mkSketch (state s) (tilted s) (tiltLevel s) (ledIndex s) (timer s)
           (modes s) (<[pin := v]> (pins s)).

(** The level a pin drives: LOW until something is written to it. *)
Definition output (s : Sketch) (pin : Z) : bool := default LOW (pins s !! pin).

(** The variables before [setup] runs: statics and globals are zero. *)
Definition power_on : Sketch :=
  mkSketch WAIT_FOR_LIFT false f32_zero 0 0 ∅ ∅.

(** [a[i]] on a C array: defined only inside the bounds. *)
Definition array_at (a : list Z) (i : Z) : option Z :=
  if 0 <=? i then a !! Z.to_nat i else None.

(** ** The sketch's functions *)

Section Sketch.
Variable cfg : Config.

(** [for (i = 0; i < LED_COUNT; i++) f(LED_PINS[i])] *)
Definition for_each_led (f : Z -> Sketch -> Sketch) (s : Sketch) : Sketch :=
  foldl (fun acc pin => f pin acc) s (LED_PINS cfg).

Definition setup (s : Sketch) : Sketch :=
  let s := pinMode (TILT_PIN cfg) INPUT_PULLUP s in
  let s := pinMode (RELAIS_PIN cfg) OUTPUT s in
  let s := for_each_led (fun pin => pinMode pin OUTPUT) s in
  set_state WAIT_FOR_LIFT s.

Definition reset (newState : States) (s : Sketch) : Sketch :=
  let s := digitalWrite (RELAIS_PIN cfg) LOW s in
  let s := for_each_led (fun pin => digitalWrite pin LOW) s in
  set_state newState s.

(** [raw] is what [digitalRead(TILT_PIN)] returns in this call. *)
Definition isTilted (raw : bool) (s : Sketch) : bool * Sketch :=
  let newTilt := float_of_level raw in
  let lvl := f32_add (tiltLevel s)
                     (f32_mul (f32_sub newTilt (tiltLevel s)) (LOW_PASS cfg)) in
  let t :=
    if (negb (tilted s) && f32_ge lvl (THRESHOLD_HIGH cfg))
       || (tilted s && f32_le lvl (THRESHOLD_LOW cfg))
    then negb (tilted s) else tilted s in
  (t, set_filter t lvl s).

(** [digitalWrite(LED_PINS[ledIndex++], HIGH)] *)
Definition light_next_led (s : Sketch) : option Sketch :=
  pin ← array_at (LED_PINS cfg) (ledIndex s);
  Some (digitalWrite pin HIGH (set_ledIndex (ledIndex s + 1) s)).

(** [now] is what [millis()] returns in this call. *)
Definition shotCycle (now : Z) (s : Sketch) : option Sketch :=
  match state s with
  | WAIT_FOR_LIFT =>
      s ← light_next_led (set_timer now (set_ledIndex 0 s));
      Some (set_state BLINK_LEDS s)
  | BLINK_LEDS =>
      if BLINK_SEQUENCE cfg <=? elapsed now (timer s) then
        s ← light_next_led (set_timer now s);
        Some (if decide (ledIndex s = LED_COUNT cfg)
              then set_state TRIGGER_SHOT s else s)
      else Some s
  | TRIGGER_SHOT =>
      if AFTER_LAST_LED cfg <=? elapsed now (timer s) then
        Some (set_state SHOT_DONE
                (digitalWrite (RELAIS_PIN cfg) HIGH (set_timer now s)))
      else Some s
  | SHOT_DONE =>
      if RELAIS_TRIGGER_TIME cfg <=? elapsed now (timer s) then
        Some (reset PAUSE (set_timer now s))
      else Some s
  | PAUSE =>
      if PAUSE_AFTER_SHOT cfg <=? elapsed now (timer s) then
        Some (set_state WAIT_FOR_LIFT s)
      else Some s
  end.

(** One pass of [loop()]; [delay(10)] changes no variable. *)
Definition loop (raw : bool) (now : Z) (s : Sketch) : option Sketch :=
  let '(t, s) := isTilted raw s in
  if t then shotCycle now s
  else if decide (state s ≠ WAIT_FOR_LIFT) then Some (reset WAIT_FOR_LIFT s)
  else Some s.

(** [shotCycle] called once per reading of the clock in [ticks]. *)
Fixpoint shotCycles (ticks : list Z) (s : Sketch) : option Sketch :=
  match ticks with
  | [] => Some s
  | now :: rest => s ← shotCycle now s; shotCycles rest s
  end.

(** The states the sketch can be in after [setup] and any number of passes
    of [loop], whatever the sensor and the clock return. *)
Inductive reachable : Sketch -> Prop :=
  | reach_setup : reachable (setup power_on)
  | reach_loop raw now s s' :
      reachable s -> loop raw now s = Some s' -> reachable s'.

Definition leds_off (s : Sketch) : Prop :=
  ∀ pin, pin ∈ LED_PINS cfg → output s pin = LOW.
Definition relay_off (s : Sketch) : Prop := output s (RELAIS_PIN cfg) = LOW.
End Sketch.

(** The constant the elapsed time is compared with in each state. *)
Definition duration (cfg : Config) (st : States) : Z :=
  match st with
  | WAIT_FOR_LIFT => 0
  | BLINK_LEDS => BLINK_SEQUENCE cfg
  | TRIGGER_SHOT => AFTER_LAST_LED cfg
  | SHOT_DONE => RELAIS_TRIGGER_TIME cfg
  | PAUSE => PAUSE_AFTER_SHOT cfg
  end.

(** The index [shotCycle] reads [LED_PINS] at in a call, if it reads it. *)
Definition led_read (cfg : Config) (now : Z) (s : Sketch) : option Z :=
  match state s with
  | WAIT_FOR_LIFT => Some 0
  | BLINK_LEDS =>
      if BLINK_SEQUENCE cfg <=? elapsed now (timer s) then Some (ledIndex s)
      else None
  | _ => None
  end.

(** ** Clock readings of one shot

    A wait of [d] ms that starts at [start] sees any readings [early] taken
    before it is over, then one reading at its end.  Times are kept as plain
    integers here; the sketch sees them through [wrap32]. *)
Definition wait_ticks (start d : Z) (early : list Z) : list Z :=
  early ++ [start + d].

Definition early_in (start d : Z) (early : list Z) : Prop :=
  Forall (fun t => start <= t < start + d) early.

(** One wait of [d] ms per LED after the first. *)
Fixpoint led_ticks (d start : Z) (earlies : list (list Z)) : list Z :=
  match earlies with
  | [] => []
  | early :: rest => wait_ticks start d early ++ led_ticks d (start + d) rest
  end.

Fixpoint leds_early_in (d start : Z) (earlies : list (list Z)) : Prop :=
  match earlies with
  | [] => True
  | early :: rest => early_in start d early ∧ leds_early_in d (start + d) rest
  end.

(** The readings taken between the transitions of one shot. *)
Record Early : Type := mkEarly {
  early_leds : list (list Z);
  early_trigger : list Z;
  early_shot : list Z;
  early_pause : list Z
}.

Section Cycle.
Variable cfg : Config.

Definition last_led_time (t0 : Z) : Z :=
  t0 + (LED_COUNT cfg - 1) * BLINK_SEQUENCE cfg.
Definition relay_on_time (t0 : Z) : Z := last_led_time t0 + AFTER_LAST_LED cfg.
Definition relay_off_time (t0 : Z) : Z :=
  relay_on_time t0 + RELAIS_TRIGGER_TIME cfg.

(** The readings up to, but without, the one that ends the pause. *)
Definition busy_ticks (t0 : Z) (e : Early) : list Z :=
  t0 :: led_ticks (BLINK_SEQUENCE cfg) t0 (early_leds e)
     ++ wait_ticks (last_led_time t0) (AFTER_LAST_LED cfg) (early_trigger e)
     ++ wait_ticks (relay_on_time t0) (RELAIS_TRIGGER_TIME cfg) (early_shot e)
     ++ early_pause e.

Definition cycle_ticks (t0 : Z) (e : Early) : list Z :=
  busy_ticks t0 e ++ [relay_off_time t0 + PAUSE_AFTER_SHOT cfg].

Definition early_ok (t0 : Z) (e : Early) : Prop :=
  Z.of_nat (length (early_leds e)) = LED_COUNT cfg - 1
  ∧ leds_early_in (BLINK_SEQUENCE cfg) t0 (early_leds e)
  ∧ early_in (last_led_time t0) (AFTER_LAST_LED cfg) (early_trigger e)
  ∧ early_in (relay_on_time t0) (RELAIS_TRIGGER_TIME cfg) (early_shot e)
  ∧ early_in (relay_off_time t0) (PAUSE_AFTER_SHOT cfg) (early_pause e).

(** The time a shot takes, from the first LED to the end of the pause. *)
Definition cycle_time : Z :=
  (LED_COUNT cfg - 1) * BLINK_SEQUENCE cfg + AFTER_LAST_LED cfg
  + RELAIS_TRIGGER_TIME cfg + PAUSE_AFTER_SHOT cfg.

(** The same time as the specification words it: one interval per LED. *)
Definition claimed_cycle_time : Z :=
  LED_COUNT cfg * BLINK_SEQUENCE cfg + AFTER_LAST_LED cfg
  + RELAIS_TRIGGER_TIME cfg + PAUSE_AFTER_SHOT cfg.

(** The durations fit an [unsigned long]. *)
Definition durations_ok : Prop :=
  0 <= BLINK_SEQUENCE cfg < 2 ^ ULONG_BITS
  ∧ 0 <= AFTER_LAST_LED cfg < 2 ^ ULONG_BITS
  ∧ 0 <= RELAIS_TRIGGER_TIME cfg < 2 ^ ULONG_BITS
  ∧ 0 <= PAUSE_AFTER_SHOT cfg < 2 ^ ULONG_BITS.

(** [ticks] takes the sequencer from [s] to [s'] without passing through
    [WAIT_FOR_LIFT] on the way or at the end. *)
Definition busy_run (ticks : list Z) (s s' : Sketch) : Prop :=
  shotCycles cfg ticks s = Some s'
  ∧ ∀ p q, ticks = p ++ q → p ≠ [] →
      ∃ sp, shotCycles cfg p s = Some sp ∧ state sp ≠ WAIT_FOR_LIFT.
End Cycle.

(** ** Runs of the filter and scenario helpers *)

(** [isTilted] called once per raw sample, oldest first. *)
Definition tilt_samples (cfg : Config) (raws : list bool) (s : Sketch) : Sketch :=
  foldl (fun acc raw => (isTilted cfg raw acc).2) s raws.

(** What can be seen of the sequencer: its state, the index of the next LED,
    the level of each LED in the order of [LED_PINS], and the relay's level. *)
Definition observe (cfg : Config) (s : Sketch) : States * Z * list bool * bool :=
  (state s, ledIndex s, map (output s) (LED_PINS cfg), output s (RELAIS_PIN cfg)).

(** The constraints the specification places on a configuration: at least
    one LED, and thresholds with low < 0.5 <= high. *)
Definition spec_config_ok (cfg : Config) : bool :=
  (1 <=? LED_COUNT cfg)
  && f32_lt (THRESHOLD_LOW cfg) f32_0_5
  && f32_le f32_0_5 (THRESHOLD_HIGH cfg).

(** Two configurations that break one constraint each: the sketch's own
    with no LED, and with its two thresholds swapped. *)
Definition no_led_config : Config :=
  {| TILT_PIN := 12;
     RELAIS_PIN := 3;
     LED_PINS := [];
     BLINK_SEQUENCE := 1500;
     AFTER_LAST_LED := 500;
     RELAIS_TRIGGER_TIME := 20;
     PAUSE_AFTER_SHOT := 5000;
     LOW_PASS := f32_0_5;
     THRESHOLD_HIGH := f32_0_7;
     THRESHOLD_LOW := f32_0_3 |}.

Definition swapped_thresholds_config : Config :=
  {| TILT_PIN := 12;
     RELAIS_PIN := 3;
     LED_PINS := [4; 5; 6];
     BLINK_SEQUENCE := 1500;
     AFTER_LAST_LED := 500;
     RELAIS_TRIGGER_TIME := 20;
     PAUSE_AFTER_SHOT := 5000;
     LOW_PASS := f32_0_5;
     THRESHOLD_HIGH := f32_0_3;
     THRESHOLD_LOW := f32_0_7 |}.

(** The part of a configuration [setup] reads: the three pin constants. *)
Definition pins_only (cfg : Config) : Config :=
  {| TILT_PIN := TILT_PIN cfg;
     RELAIS_PIN := RELAIS_PIN cfg;
     LED_PINS := LED_PINS cfg;
     BLINK_SEQUENCE := 0;
     AFTER_LAST_LED := 0;
     RELAIS_TRIGGER_TIME := 0;
     PAUSE_AFTER_SHOT := 0;
     LOW_PASS := f32_zero;
     THRESHOLD_HIGH := f32_zero;
     THRESHOLD_LOW := f32_zero |}.

(** The values [isTilted] returns over a run of samples, oldest first. *)
Fixpoint tilt_outputs (cfg : Config) (raws : list bool) (s : Sketch)
  : list bool :=
  match raws with
  | [] => []
  | raw :: rest =>
      (isTilted cfg raw s).1 :: tilt_outputs cfg rest (isTilted cfg raw s).2
  end.

(** [loop] run once per pair of a raw sample and a clock reading. *)
Fixpoint loops (cfg : Config) (inputs : list (bool * Z)) (s : Sketch)
  : option Sketch :=
  match inputs with
  | [] => Some s
  | (raw, now) :: rest => s ← loop cfg raw now s; loops cfg rest s
  end.

(** The sketch after five passes with the stick held up, at 0, 10, 1510,
    3010 and 3510 ms: the filter lets the second pass start the shot, the
    fifth drives the relay. *)
Definition held_up_passes : list (bool * Z) :=
  [(true, 0); (true, 10); (true, 1510); (true, 3010); (true, 3510)].

Definition relay_driven : Sketch :=
  default power_on
    (loops sketch_config held_up_passes (setup sketch_config power_on)).

(** The readings of a shot on the sketch's timings, some taken early in
    every wait. *)
Definition sample_early : Early :=
  {| early_leds := [[10; 700]; [1500; 2990]];
     early_trigger := [3000; 3250];
     early_shot := [3510];
     early_pause := [3520; 6000; 8519] |}.

(** What holds between two passes of [loop]: while the LEDs are being lit
    the next index is inside [LED_PINS], and the relay is driven exactly in
    [SHOT_DONE]. *)
Definition sequencer_inv (cfg : Config) (s : Sketch) : Prop :=
  (state s = BLINK_LEDS → 1 <= ledIndex s < LED_COUNT cfg)
  ∧ (output s (RELAIS_PIN cfg) = HIGH ↔ state s = SHOT_DONE).

(** ** Rounding in binary32

    What follows names the pieces of the rounding of [SpecFloat] at the
    parameters of binary32, and the predicates used to reason about it. *)

Definition f32_fexp : Z -> Z := fexp f32_prec f32_emax.
Definition f32_bounded : positive -> Z -> bool := bounded f32_prec f32_emax.
Definition f32_round_aux := binary_round_aux f32_prec f32_emax.
Definition f32_round := binary_round f32_prec f32_emax.

(** What a [shr_record] knows of [M] after [k] single shifts: the quotient,
    the last bit shifted out and whether anything below it was set. *)
Definition shr_inv (M k : Z) (mrs : shr_record) : Prop :=
  ∃ u, 2 * M = shr_m mrs * 2 ^ (k + 1) + (if shr_r mrs then 2 ^ k else 0) + u
       ∧ 0 <= u < 2 ^ k ∧ (shr_s mrs = true ↔ u ≠ 0) ∧ 0 <= shr_m mrs.

(** [V] is [X] rounded to a multiple of [g]: down, or up when the remainder
    is at least half of [g]. *)
Definition rnd_spec (V X g : Z) : Prop :=
  V = X / g * g ∨ (V = (X / g + 1) * g ∧ g <= 2 * (X mod g)).

(** The scale all values are measured in: 2^-298, below the product of two
    smallest subnormal numbers. *)
Definition f32_scale : Z := 298.

(** The float [r] has sign [sx] and magnitude [V] * 2^-298. *)
Definition f32_rep (r : spec_float) (sx : bool) (V : Z) : Prop :=
  (V = 0 ∧ r = S754_zero sx)
  ∨ ∃ m e, r = S754_finite sx m e ∧ f32_bounded m e = true
           ∧ V = Z.pos m * 2 ^ (e + f32_scale).

(** The last step of [binary_round_aux]: renormalise the rounded mantissa
    and build the float. *)
Definition f32_pack (sx : bool) (m : Z) (e : Z) : spec_float :=
  let '(mrs, e') := shr_fexp f32_prec f32_emax m e loc_Exact in
  match shr_m mrs with
  | Z0 => S754_zero sx
  | Zpos m => if e' <=? f32_emax - f32_prec then S754_finite sx m e'
              else S754_infinity sx
  | _ => S754_nan
  end.

Definition f32_normalize := binary_normalize f32_prec f32_emax.

(** The values of 1.0 and of the spacing of the floats just below 1.0, in
    units of 2^-298. *)
Definition f32_one_val : Z := 2 ^ 298.
Definition f32_ulp_val : Z := 2 ^ 274.

(** A level between 0 and 1, and a factor above 0 and not above 1. *)
Definition unit_level (l : spec_float) : Prop :=
  ∃ v, f32_rep l false v ∧ 0 <= v <= f32_one_val.

Definition unit_factor (a : spec_float) : Prop :=
  ∃ ma ea, a = S754_finite false ma ea ∧ f32_bounded ma ea = true
           ∧ Z.pos ma * 2 ^ (ea + f32_scale) <= f32_one_val.

(** ** What the actuators show *)

(** The number of LEDs the sequencer has lit in a state. *)
Definition lit_count (cfg : Config) (s : Sketch) : Z :=
  match state s with
  | WAIT_FOR_LIFT | PAUSE => 0
  | BLINK_LEDS => ledIndex s
  | TRIGGER_SHOT | SHOT_DONE => LED_COUNT cfg
  end.

(** The LEDs with an index below [lit_count] are lit, the others are dark. *)
Definition display_inv (cfg : Config) (s : Sketch) : Prop :=
  ∀ k pin, LED_PINS cfg !! k = Some pin →
           output s pin = bool_decide (Z.of_nat k < lit_count cfg s).

(** The levels of the LEDs, in the order of [LED_PINS], and of the relay. *)
Definition actuators (cfg : Config) (s : Sketch) : States * list bool * bool :=
  (state s, map (output s) (LED_PINS cfg), output s (RELAIS_PIN cfg)).

(** The sketch two passes after a shot has started, the stick going down:
    the filter still answers true after the first lowered sample. *)
Definition going_down_passes : list (bool * Z) :=
  [(true, 0); (true, 10); (false, 20)].

Definition shot_under_way : Sketch :=
  default power_on
    (loops sketch_config going_down_passes (setup sketch_config power_on)).

(** The sketch three passes into a shot with the stick held up, at 0, 10 and
    1510 ms: two LEDs are lit, the last one is due at 3010 ms. *)
Definition last_led_due_passes : list (bool * Z) :=
  [(true, 0); (true, 10); (true, 1510)].

Definition last_led_due : Sketch :=
  default power_on
    (loops sketch_config last_led_due_passes (setup sketch_config power_on)).

(** The sketch one pass after [relay_driven], at 3530 ms: the relay pulse
    is over. *)
Definition relay_released : Sketch :=
  default power_on (loop sketch_config true 3530 relay_driven).

(** The clock read [k] ms later, modulo 2^32: the time [shotCycle] keeps. *)
Definition shift_clock (k : Z) (s : Sketch) : Sketch :=
  set_timer (wrap32 (timer s + k)) s.

(** Two states the sequencer cannot tell apart: the same state and the same
    levels on the relay and the LEDs, and during a shot the same index and
    start time.  In WAIT_FOR_LIFT the index and the time are dead. *)
Definition same_shot (cfg : Config) (a b : Sketch) : Prop :=
  state a = state b
  ∧ (state a ≠ WAIT_FOR_LIFT → ledIndex a = ledIndex b ∧ timer a = timer b)
  ∧ (∀ p, p = RELAIS_PIN cfg ∨ p ∈ LED_PINS cfg → output a p = output b p).


Definition infinite_factor_config : Config :=
  {| TILT_PIN := 12;
     RELAIS_PIN := 3;
     LED_PINS := [4; 5; 6];
     BLINK_SEQUENCE := 1500;
     AFTER_LAST_LED := 500;
     RELAIS_TRIGGER_TIME := 20;
     PAUSE_AFTER_SHOT := 5000;
     LOW_PASS := S754_infinity false;
     THRESHOLD_HIGH := f32_0_7;
     THRESHOLD_LOW := f32_0_3 |}.

(** The filter of [infinite_factor_config] after two raised samples. *)
Definition filter_lost : Sketch :=
  tilt_samples infinite_factor_config [true; true] power_on.

(** ** Writing one level to a list of pins *)

Lemma write_all_pins v l s p :
  pins (foldl (fun acc pin => digitalWrite pin v acc) s l) !! p =
    if decide (p ∈ l) then Some v else pins s !! p.
Proof.
  revert s. induction l as [|q l IH]; intros s; simpl.
  - destruct (decide (p ∈ [])) as [H|H]; [by apply elem_of_nil in H | done].
  - rewrite IH. simpl. rewrite lookup_insert.
    destruct (decide (q = p)) as [->|Hne].
    + rewrite (decide_True (P := p ∈ p :: l)) by (apply elem_of_cons; tauto).
      by destruct (decide (p ∈ l)).
    + destruct (decide (p ∈ l)) as [Hl|Hl].
      * rewrite decide_True; [done | apply elem_of_cons; tauto].
      * rewrite decide_False; [done |].
        rewrite elem_of_cons. intros [?|?]; congruence.
Qed.

Lemma write_all_frame v l s :
  let s' := foldl (fun acc pin => digitalWrite pin v acc) s l in
  state s' = state s ∧ tilted s' = tilted s ∧ tiltLevel s' = tiltLevel s
  ∧ ledIndex s' = ledIndex s ∧ timer s' = timer s ∧ modes s' = modes s.
Proof.
  revert s. induction l as [|q l IH]; intros s; simpl; [done|].
  destruct (IH (digitalWrite q v s)) as (-> & -> & -> & -> & -> & ->). done.
Qed.

Lemma pinMode_all_frame l s :
  let s' := foldl (fun acc pin => pinMode pin OUTPUT acc) s l in
  state s' = state s ∧ tilted s' = tilted s ∧ tiltLevel s' = tiltLevel s
  ∧ ledIndex s' = ledIndex s ∧ timer s' = timer s ∧ pins s' = pins s.
Proof.
  revert s. induction l as [|q l IH]; intros s; simpl; [done|].
  destruct (IH (pinMode q OUTPUT s)) as (-> & -> & -> & -> & -> & ->). done.
Qed.

(** ** [reset] *)

Section Reset.
Variable cfg : Config.

Lemma reset_pins target s p :
  pins (reset cfg target s) !! p =
    if decide (p = RELAIS_PIN cfg ∨ p ∈ LED_PINS cfg) then Some LOW
    else pins s !! p.
Proof.
  unfold reset, for_each_led. simpl. rewrite write_all_pins. simpl.
  rewrite lookup_insert.
  repeat case_decide; try congruence; exfalso; intuition congruence.
Qed.

Lemma reset_frame target s :
  let s' := reset cfg target s in
  state s' = target ∧ tilted s' = tilted s ∧ tiltLevel s' = tiltLevel s
  ∧ ledIndex s' = ledIndex s ∧ timer s' = timer s ∧ modes s' = modes s.
Proof.
  unfold reset, for_each_led. simpl.
  destruct (write_all_frame LOW (LED_PINS cfg)
              (digitalWrite (RELAIS_PIN cfg) LOW s))
    as (_ & -> & -> & -> & -> & ->). done.
Qed.

Lemma reset_relay_off target s : relay_off cfg (reset cfg target s).
Proof.
  unfold relay_off, output. rewrite reset_pins.
  destruct (decide _) as [H|H]; [done | tauto].
Qed.

Lemma reset_leds_off target s : leds_off cfg (reset cfg target s).
Proof.
  intros pin Hpin. unfold output. rewrite reset_pins.
  destruct (decide _) as [H|H]; [done | tauto].
Qed.

Lemma Sketch_eq (a b : Sketch) :
  state a = state b → tilted a = tilted b → tiltLevel a = tiltLevel b →
  ledIndex a = ledIndex b → timer a = timer b → modes a = modes b →
  pins a = pins b → a = b.
Proof. destruct a, b; simpl; intros; subst; reflexivity. Qed.

Lemma reset_reset t1 t2 s : reset cfg t2 (reset cfg t1 s) = reset cfg t2 s.
Proof.
  pose proof (reset_frame t2 (reset cfg t1 s)) as (? & ? & ? & ? & ? & ?).
  pose proof (reset_frame t1 s) as (? & ? & ? & ? & ? & ?).
  pose proof (reset_frame t2 s) as (? & ? & ? & ? & ? & ?).
  apply Sketch_eq; try congruence.
  apply map_eq; intros p. rewrite !reset_pins.
  repeat case_decide; try congruence; exfalso; intuition congruence.
Qed.
End Reset.

(** ** Reading [LED_PINS] *)

Lemma array_at_Some a i pin :
  array_at a i = Some pin ↔ (0 <= i < Z.of_nat (length a)) ∧ a !! Z.to_nat i = Some pin.
Proof.
  unfold array_at. destruct (Z.leb_spec 0 i) as [Hi|Hi].
  - split.
    + intros H. split; [|done]. apply lookup_lt_Some in H. lia.
    + by intros [_ H].
  - split; [done | lia].
Qed.

Lemma array_at_None a i :
  array_at a i = None ↔ ¬ (0 <= i < Z.of_nat (length a)).
Proof.
  unfold array_at. destruct (Z.leb_spec 0 i) as [Hi|Hi].
  - rewrite lookup_ge_None. lia.
  - split; [lia | done].
Qed.

Lemma array_at_elem a i pin : array_at a i = Some pin → pin ∈ a.
Proof.
  intros [_ H]%array_at_Some. apply list_elem_of_lookup. eauto.
Qed.

Section Sequencer.
Variable cfg : Config.

Lemma light_next_led_Some s s' :
  light_next_led cfg s = Some s' ↔
  ∃ pin, array_at (LED_PINS cfg) (ledIndex s) = Some pin
         ∧ s' = digitalWrite pin HIGH (set_ledIndex (ledIndex s + 1) s).
Proof.
  unfold light_next_led.
  destruct (array_at (LED_PINS cfg) (ledIndex s)) as [pin|]; simpl.
  - split; [intros [= <-]; eauto | intros (? & [= <-] & ->); done].
  - split; [done | intros (? & [=] & _)].
Qed.

Lemma light_next_led_None s :
  light_next_led cfg s = None ↔ ¬ (0 <= ledIndex s < LED_COUNT cfg).
Proof.
  unfold light_next_led, LED_COUNT. rewrite <- array_at_None.
  destruct (array_at (LED_PINS cfg) (ledIndex s)); simpl; split; done.
Qed.

(** [shotCycle] has no result exactly when it reads [LED_PINS] outside its
    bounds. *)
Lemma shotCycle_None now s :
  shotCycle cfg now s = None ↔
  ∃ i, led_read cfg now s = Some i ∧ ¬ (0 <= i < LED_COUNT cfg).
Proof.
  unfold shotCycle, led_read.
  destruct (state s); simpl;
    repeat match goal with
           | |- context [?a <=? ?b] => destruct (a <=? b)
           end;
    try (split; [done | by intros (? & [=] & _)]).
  - destruct (light_next_led cfg (set_timer now (set_ledIndex 0 s))) eqn:E; simpl.
    + split; [done|]. intros (i & [= <-] & Hi).
      assert (light_next_led cfg (set_timer now (set_ledIndex 0 s)) = None)
        by (by apply light_next_led_None). congruence.
    + intros. split; [|done]. intros _. exists 0. split; [done|].
      by apply light_next_led_None in E.
  - destruct (light_next_led cfg (set_timer now s)) eqn:E; simpl.
    + split; [done|]. intros (i & [= <-] & Hi).
      assert (light_next_led cfg (set_timer now s) = None)
        by (by apply light_next_led_None). congruence.
    + split; [|done]. intros _. exists (ledIndex s). split; [done|].
      by apply light_next_led_None in E.
Qed.

(** Nothing happens before the state's duration has passed. *)
Lemma shotCycle_early now s :
  state s ≠ WAIT_FOR_LIFT →
  elapsed now (timer s) < duration cfg (state s) →
  shotCycle cfg now s = Some s.
Proof.
  intros Hst Hlt. unfold shotCycle, duration in *.
  destruct (state s); [done | ..];
    match goal with
    | |- context [?a <=? ?b] => destruct (Z.leb_spec a b); [lia | done]
    end.
Qed.
End Sequencer.

(** ** Invariant of the tick loop *)

Section Invariant.
Variable cfg : Config.
Hypothesis Hcount : 2 <= LED_COUNT cfg.
Hypothesis Hrelay : RELAIS_PIN cfg ∉ LED_PINS cfg.

Lemma setup_frame s :
  let s' := setup cfg s in
  state s' = WAIT_FOR_LIFT ∧ tilted s' = tilted s ∧ tiltLevel s' = tiltLevel s
  ∧ ledIndex s' = ledIndex s ∧ timer s' = timer s ∧ pins s' = pins s.
Proof.
  unfold setup, for_each_led. simpl.
  match goal with
  | |- context [foldl _ ?s0 ?l] =>
      destruct (pinMode_all_frame l s0) as (_ & -> & -> & -> & -> & ->)
  end.
  done.
Qed.

Lemma setup_inv : sequencer_inv cfg (setup cfg power_on).
Proof.
  destruct (setup_frame power_on) as (Hst & _ & _ & _ & _ & Hp).
  unfold sequencer_inv, output. rewrite Hst, Hp. simpl.
  rewrite lookup_empty. simpl. unfold LOW, HIGH. split; [done|].
  split; done.
Qed.

Lemma isTilted_inv raw s :
  sequencer_inv cfg s → sequencer_inv cfg (isTilted cfg raw s).2.
Proof. done. Qed.

(** Writing to a LED pin leaves the relay's level as it was. *)
Ltac relay_untouched Hpin :=
  unfold output; simpl; rewrite lookup_insert_ne;
  [ | let E := fresh in intros E; rewrite E in Hpin; contradiction ].

Lemma shotCycle_inv now s s' :
  sequencer_inv cfg s → shotCycle cfg now s = Some s' → sequencer_inv cfg s'.
Proof.
  intros Hinv. pose proof Hinv as [Hidx Hrel]. unfold shotCycle.
  destruct (state s) eqn:Est.
  - (* WAIT_FOR_LIFT *)
    destruct (light_next_led cfg (set_timer now (set_ledIndex 0 s)))
      as [s1|] eqn:E; simpl; [|done].
    intros [= <-]. apply light_next_led_Some in E as (pin & Hpin & ->).
    apply array_at_elem in Hpin.
    split; simpl; [lia|].
    relay_untouched Hpin. fold (output s (RELAIS_PIN cfg)).
    rewrite Hrel. split; done.
  - (* BLINK_LEDS *)
    destruct (_ <=? _); [|by intros [= <-]].
    destruct (light_next_led cfg (set_timer now s)) as [s1|] eqn:E;
      simpl; [|done].
    apply light_next_led_Some in E as (pin & Hpin & ->).
    pose proof Hpin as [Hin _]%array_at_Some.
    apply array_at_elem in Hpin. simpl in *.
    specialize (Hidx eq_refl). fold (LED_COUNT cfg) in Hin.
    destruct (decide _) as [Heq|Hne]; intros [= <-].
    + split; [done|]. relay_untouched Hpin.
      fold (output s (RELAIS_PIN cfg)). rewrite Hrel. split; done.
    + split; simpl; [intros _; lia|]. relay_untouched Hpin.
      fold (output s (RELAIS_PIN cfg)). rewrite Hrel, Est. split; done.
  - (* TRIGGER_SHOT *)
    destruct (_ <=? _); intros [= <-].
    + split; [done|]. unfold output. simpl. rewrite lookup_insert_eq. done.
    + done.
  - (* SHOT_DONE *)
    destruct (_ <=? _); intros [= <-].
    + destruct (reset_frame cfg PAUSE (set_timer now s)) as (Hst & _).
      split; rewrite Hst; [done|]. rewrite (reset_relay_off cfg). done.
    + done.
  - (* PAUSE *)
    destruct (_ <=? _); intros [= <-].
    + split; [done|]. simpl.
      change (output _ _) with (output s (RELAIS_PIN cfg)).
      rewrite Hrel. split; done.
    + done.
Qed.

Lemma reset_idle_inv s : sequencer_inv cfg (reset cfg WAIT_FOR_LIFT s).
Proof.
  destruct (reset_frame cfg WAIT_FOR_LIFT s) as (Hst & _).
  split; rewrite Hst; [done|]. rewrite (reset_relay_off cfg). done.
Qed.

Lemma loop_inv raw now s s' :
  sequencer_inv cfg s → loop cfg raw now s = Some s' → sequencer_inv cfg s'.
Proof.
  intros Hinv. unfold loop.
  pose proof (isTilted_inv raw s Hinv) as Hinv'.
  destruct (isTilted cfg raw s) as [t s1]. simpl in Hinv'.
  destruct t; [by apply shotCycle_inv|].
  destruct (decide _); intros [= <-]; [apply reset_idle_inv | done].
Qed.

Lemma reachable_inv s : reachable cfg s → sequencer_inv cfg s.
Proof.
  induction 1 as [|raw now s s' _ IH Hstep]; [apply setup_inv|].
  by eapply loop_inv.
Qed.
End Invariant.

(** ** Runs of [shotCycle] *)

Lemma wrap32_elapsed a b : elapsed (wrap32 a) (wrap32 b) = wrap32 (a - b).
Proof. unfold elapsed, wrap32. by rewrite <- Zminus_mod. Qed.

Lemma wrap32_small z : 0 <= z < 2 ^ ULONG_BITS → wrap32 z = z.
Proof. intros. unfold wrap32. by apply Z.mod_small. Qed.

(** Between two readings of a clock that has not wrapped, the sketch's
    subtraction is the plain one. *)
Lemma elapsed_no_wrap now timer :
  0 <= timer <= now → now < 2 ^ ULONG_BITS → elapsed now timer = now - timer.
Proof. intros. unfold elapsed. apply wrap32_small. lia. Qed.

Section Runs.
Variable cfg : Config.

Lemma shotCycles_app a b s :
  shotCycles cfg (a ++ b) s = shotCycles cfg a s ≫= shotCycles cfg b.
Proof.
  revert s. induction a as [|t a IH]; intros s; simpl; [done|].
  destruct (shotCycle cfg t s); simpl; [apply IH | done].
Qed.

Lemma busy_run_nil s : busy_run cfg [] s s.
Proof.
  split; [done|]. intros p q Hpq Hp.
  symmetry in Hpq. apply app_eq_nil in Hpq as [-> _]. done.
Qed.

Lemma busy_run_one t s s' :
  shotCycle cfg t s = Some s' → state s' ≠ WAIT_FOR_LIFT →
  busy_run cfg [t] s s'.
Proof.
  intros Hstep Hst. split; [simpl; by rewrite Hstep|].
  intros p q Hpq Hp. destruct p as [|t' p]; [done|].
  injection Hpq as <- Hrest. symmetry in Hrest.
  apply app_eq_nil in Hrest as [-> ->].
  exists s'. simpl. by rewrite Hstep.
Qed.

Lemma busy_run_app a b s s1 s2 :
  busy_run cfg a s s1 → busy_run cfg b s1 s2 → busy_run cfg (a ++ b) s s2.
Proof.
  intros [Ha Hpa] [Hb Hpb]. split.
  - rewrite shotCycles_app, Ha. done.
  - intros p q Hpq Hp.
    apply app_eq_inv in Hpq as [(k & -> & ->)|(k & -> & ->)].
    + by apply (Hpa p k).
    + destruct k as [|t k].
      * rewrite app_nil_r in *. by apply (Hpa a []); [rewrite app_nil_r|].
      * destruct (Hpb (t :: k) q eq_refl) as (sp & Hsp & Hst); [done|].
        exists sp. rewrite shotCycles_app, Ha. done.
Qed.

(** Readings taken before the wait is over change nothing. *)
Lemma busy_run_early start early s :
  state s ≠ WAIT_FOR_LIFT →
  timer s = wrap32 start →
  duration cfg (state s) <= 2 ^ ULONG_BITS →
  early_in start (duration cfg (state s)) early →
  busy_run cfg (map wrap32 early) s s.
Proof.
  intros Hst Htm Hd. induction 1 as [|t early Ht _ IH]; simpl.
  - apply busy_run_nil.
  - apply (busy_run_app [wrap32 t] _ s s s); [|done].
    apply busy_run_one; [|done]. apply shotCycle_early; [done|].
    rewrite Htm, wrap32_elapsed, wrap32_small; lia.
Qed.

Lemma elapsed_wait start d :
  0 <= d < 2 ^ ULONG_BITS → elapsed (wrap32 (start + d)) (wrap32 start) = d.
Proof.
  intros. rewrite wrap32_elapsed.
  replace (start + d - start) with d by lia. by apply wrap32_small.
Qed.
End Runs.

(** ** One shot, wait by wait *)

Section FullCycle.
Variable cfg : Config.
Hypothesis Hcount : 2 <= LED_COUNT cfg.
Hypothesis Hdur : durations_ok cfg.

Lemma first_led now s :
  state s = WAIT_FOR_LIFT →
  ∃ s', shotCycle cfg now s = Some s' ∧ state s' = BLINK_LEDS
        ∧ ledIndex s' = 1 ∧ timer s' = now.
Proof.
  intros Hst. unfold shotCycle. rewrite Hst.
  destruct (light_next_led cfg (set_timer now (set_ledIndex 0 s)))
    as [s1|] eqn:E.
  - apply light_next_led_Some in E as (pin & _ & ->). simpl. eauto.
  - apply light_next_led_None in E. simpl in E. lia.
Qed.

Lemma next_led start s :
  state s = BLINK_LEDS → 1 <= ledIndex s < LED_COUNT cfg →
  timer s = wrap32 start →
  ∃ s', shotCycle cfg (wrap32 (start + BLINK_SEQUENCE cfg)) s = Some s'
        ∧ state s' = (if decide (ledIndex s' = LED_COUNT cfg)
                      then TRIGGER_SHOT else BLINK_LEDS)
        ∧ ledIndex s' = ledIndex s + 1
        ∧ timer s' = wrap32 (start + BLINK_SEQUENCE cfg).
Proof.
  intros Hst Hidx Htm. unfold shotCycle. rewrite Hst, Htm.
  rewrite elapsed_wait by apply Hdur. rewrite Z.leb_refl.
  destruct (light_next_led cfg
              (set_timer (wrap32 (start + BLINK_SEQUENCE cfg)) s))
    as [s1|] eqn:E.
  - apply light_next_led_Some in E as (pin & _ & ->). simpl.
    destruct (decide _) as [Heq|Hne]; eexists; (split; [done|]); simpl;
      (destruct (decide _); [|done]); done.
  - apply light_next_led_None in E. simpl in E. lia.
Qed.

Lemma led_waits earlies : ∀ start s,
  state s = (if decide (ledIndex s = LED_COUNT cfg)
             then TRIGGER_SHOT else BLINK_LEDS) →
  1 <= ledIndex s →
  ledIndex s + Z.of_nat (length earlies) = LED_COUNT cfg →
  timer s = wrap32 start →
  leds_early_in (BLINK_SEQUENCE cfg) start earlies →
  ∃ s', busy_run cfg
          (map wrap32 (led_ticks (BLINK_SEQUENCE cfg) start earlies)) s s'
        ∧ state s' = TRIGGER_SHOT
        ∧ timer s' = wrap32 (start + Z.of_nat (length earlies)
                                     * BLINK_SEQUENCE cfg).
Proof.
  destruct Hdur as (HB & _).
  induction earlies as [|early rest IH]; intros start s Hst Hlo Hlen Htm Hin.
  - simpl in *. exists s. split; [apply busy_run_nil|].
    rewrite decide_True in Hst by lia. split; [done|].
    rewrite Htm. f_equal. lia.
  - simpl in Hlen, Hin. destruct Hin as [Hearly Hrest].
    rewrite decide_False in Hst by lia.
    destruct (next_led start s) as (s1 & Hstep & Hst1 & Hidx1 & Htm1);
      [done | lia | done |].
    destruct (IH (start + BLINK_SEQUENCE cfg) s1) as (s' & Hrun & Hst' & Htm');
      [done | lia | lia | done | done |].
    exists s'. split; [|split; [done|]].
    + simpl. unfold wait_ticks. rewrite !map_app.
      apply busy_run_app with (s1 := s1); [|done].
      apply busy_run_app with (s1 := s).
      * apply busy_run_early with (start := start); rewrite ?Hst; simpl;
          [done | done | lia | done].
      * apply busy_run_one; [done|]. rewrite Hst1. by destruct (decide _).
    + rewrite Htm'. f_equal. simpl length. lia.
Qed.

Lemma trigger_wait start early s :
  state s = TRIGGER_SHOT → timer s = wrap32 start →
  early_in start (AFTER_LAST_LED cfg) early →
  ∃ s', busy_run cfg
          (map wrap32 (wait_ticks start (AFTER_LAST_LED cfg) early)) s s'
        ∧ state s' = SHOT_DONE
        ∧ timer s' = wrap32 (start + AFTER_LAST_LED cfg).
Proof.
  destruct Hdur as (_ & HA & _). intros Hst Htm Hin.
  eexists. split; [|split].
  - unfold wait_ticks. rewrite map_app.
    apply busy_run_app with (s1 := s).
    + apply busy_run_early with (start := start); rewrite ?Hst; simpl;
        [done | done | lia | done].
    + apply busy_run_one.
      * unfold shotCycle. rewrite Hst, Htm, elapsed_wait, Z.leb_refl by done.
        reflexivity.
      * done.
  - done.
  - done.
Qed.

Lemma shot_wait start early s :
  state s = SHOT_DONE → timer s = wrap32 start →
  early_in start (RELAIS_TRIGGER_TIME cfg) early →
  ∃ s', busy_run cfg
          (map wrap32 (wait_ticks start (RELAIS_TRIGGER_TIME cfg) early)) s s'
        ∧ state s' = PAUSE
        ∧ timer s' = wrap32 (start + RELAIS_TRIGGER_TIME cfg)
        ∧ relay_off cfg s' ∧ leds_off cfg s'.
Proof.
  destruct Hdur as (_ & _ & HR & _). intros Hst Htm Hin.
  exists (reset cfg PAUSE
            (set_timer (wrap32 (start + RELAIS_TRIGGER_TIME cfg)) s)).
  destruct (reset_frame cfg PAUSE
              (set_timer (wrap32 (start + RELAIS_TRIGGER_TIME cfg)) s))
    as (Hst' & _ & _ & _ & Htm' & _).
  split; [|split; [done | split; [done|]]].
  - unfold wait_ticks. rewrite map_app.
    apply busy_run_app with (s1 := s).
    + apply busy_run_early with (start := start); rewrite ?Hst; simpl;
        [done | done | lia | done].
    + apply busy_run_one.
      * unfold shotCycle. rewrite Hst, Htm, elapsed_wait, Z.leb_refl by done.
        reflexivity.
      * by rewrite Hst'.
  - split; [apply reset_relay_off | apply reset_leds_off].
Qed.

Lemma pause_end start s :
  state s = PAUSE → timer s = wrap32 start →
  shotCycle cfg (wrap32 (start + PAUSE_AFTER_SHOT cfg)) s
  = Some (set_state WAIT_FOR_LIFT s).
Proof.
  destruct Hdur as (_ & _ & _ & HP). intros Hst Htm.
  unfold shotCycle. rewrite Hst, Htm, elapsed_wait, Z.leb_refl by done.
  reflexivity.
Qed.

(** A whole shot: busy up to the last reading, idle after it. *)
Lemma shot_run t0 e s :
  state s = WAIT_FOR_LIFT → early_ok cfg t0 e →
  ∃ s1, busy_run cfg (map wrap32 (busy_ticks cfg t0 e)) s s1
        ∧ shotCycle cfg (wrap32 (t0 + cycle_time cfg)) s1
          = Some (set_state WAIT_FOR_LIFT s1)
        ∧ relay_off cfg s1 ∧ leds_off cfg s1.
Proof.
  intros Hst (Hlen & Hleds & Htrig & Hshot & Hpause).
  destruct (first_led (wrap32 t0) s Hst) as (sa & Ha & Hsta & Hidxa & Htma).
  destruct (led_waits (early_leds e) t0 sa) as (sb & Hb & Hstb & Htmb);
    [rewrite Hsta, Hidxa; by rewrite decide_False by lia
    | lia | lia | done | done |].
  rewrite Hlen in Htmb. fold (last_led_time cfg t0) in Htmb.
  destruct (trigger_wait _ _ sb Hstb Htmb Htrig) as (sc & Hc & Hstc & Htmc).
  fold (relay_on_time cfg t0) in Htmc.
  destruct (shot_wait _ _ sc Hstc Htmc Hshot)
    as (sd & Hd & Hstd & Htmd & Hrel & Hled).
  fold (relay_off_time cfg t0) in Htmd.
  exists sd. split; [|split; [|done]].
  - unfold busy_ticks.
    change (?t :: ?l) with ([t] ++ l). rewrite !map_app.
    apply busy_run_app with (s1 := sa);
      [apply busy_run_one; [done | by rewrite Hsta]|].
    apply busy_run_app with (s1 := sb); [done|].
    apply busy_run_app with (s1 := sc); [done|].
    apply busy_run_app with (s1 := sd); [done|].
    apply busy_run_early with (start := relay_off_time cfg t0);
      rewrite ?Hstd; simpl; [done | done | | done].
    destruct Hdur as (_ & _ & _ & HP). lia.
  - replace (t0 + cycle_time cfg)
      with (relay_off_time cfg t0 + PAUSE_AFTER_SHOT cfg)
      by (unfold relay_off_time, relay_on_time, last_led_time, cycle_time; lia).
    by apply pause_end.
Qed.
End FullCycle.

(** ** Comparing floats *)

Lemma SFcompare_swap x y c :
  SFcompare x y = Some c → SFcompare y x = Some (CompOpp c).
Proof.
  destruct x as [sx|sx| |sx mx ex], y as [sy|sy| |sy my ey]; simpl;
    try discriminate; try (intros [= <-]; by destruct sx, sy || by destruct sx
                                             || by destruct sy).
  intros [= <-]. f_equal.
  pose proof (Pos.compare_cont_antisym mx my Eq) as Hm. simpl in Hm.
  rewrite (Z.compare_antisym ey ex).
  destruct sx, sy, (ey ?= ex); simpl; try done.
  exact (f_equal CompOpp (eq_sym Hm)).
Qed.

Lemma f32_lt_not_ge x y : f32_lt x y = true → f32_ge x y = false.
Proof.
  unfold f32_lt, f32_ge, SFltb, SFleb.
  destruct (SFcompare x y) as [[]|] eqn:E; try done.
  by rewrite (SFcompare_swap _ _ _ E).
Qed.

Lemma f32_lt_not_le x y : f32_lt x y = true → f32_le y x = false.
Proof. apply f32_lt_not_ge. Qed.

(** ** Rounding to the format *)

Lemma f32_fexp_eq e : f32_fexp e = Z.max (e - 24) (-149).
Proof. reflexivity. Qed.

Lemma digits2_bounds m :
  2 ^ (Z.pos (digits2_pos m) - 1) <= Z.pos m < 2 ^ Z.pos (digits2_pos m).
Proof.
  induction m as [m IH|m IH|]; simpl digits2_pos.
  - rewrite Pos2Z.inj_succ.
    replace (Z.succ (Z.pos (digits2_pos m)) - 1) with (Z.succ (Z.pos (digits2_pos m) - 1)) by lia.
    rewrite !Z.pow_succ_r by lia. lia.
  - rewrite Pos2Z.inj_succ.
    replace (Z.succ (Z.pos (digits2_pos m)) - 1) with (Z.succ (Z.pos (digits2_pos m) - 1)) by lia.
    rewrite !Z.pow_succ_r by lia. lia.
  - simpl. lia.
Qed.

Lemma digits2_unique m k :
  2 ^ (k - 1) <= Z.pos m < 2 ^ k -> Z.pos (digits2_pos m) = k.
Proof.
  intros [Hlo Hhi]. pose proof (digits2_bounds m) as [Dlo Dhi].
  set (d := Z.pos (digits2_pos m)) in *.
  assert (0 < k).
  { destruct (Z.lt_trichotomy k 0) as [Hk|[Hk|Hk]]; [|subst k; simpl in Hhi; lia|lia].
    rewrite Z.pow_neg_r in Hhi by lia. lia. }
  destruct (Z.lt_trichotomy d k) as [Hlt|[Heq|Hgt]]; [|done|].
  - assert (2 ^ d <= 2 ^ (k - 1)) by (apply Z.pow_le_mono_r; lia). lia.
  - assert (2 ^ k <= 2 ^ (d - 1)) by (apply Z.pow_le_mono_r; lia). lia.
Qed.

Lemma shr_inv_start M : 0 <= M -> shr_inv M 0 (Build_shr_record M false false).
Proof. intros. exists 0. simpl. repeat split; try lia; done. Qed.

Lemma shr_1_inv M k mrs : 0 <= k -> shr_inv M k mrs -> shr_inv M (k + 1) (shr_1 mrs).
Proof.
  intros Hk (u & HM & Hu & Hs & Hm). destruct mrs as [m r s]. simpl in *.
  assert (Hp : 2 ^ (k + 1) = 2 * 2 ^ k) by (rewrite Z.pow_add_r by lia; lia).
  assert (Hpp : 2 ^ (k + 1 + 1) = 4 * 2 ^ k) by (rewrite !Z.pow_add_r by lia; lia).
  assert (0 < 2 ^ k) by (apply Z.pow_pos_nonneg; lia).
  exists ((if r then 2 ^ k else 0) + u).
  rewrite Hpp, Hp in *.
  assert (Hs' : (r || s = true) ↔ (if r then 2 ^ k else 0) + u ≠ 0).
  { destruct r; simpl; [split; [lia | done]|]. rewrite Hs. split; intros; lia. }
  destruct m as [|[p|p|]|p]; simpl; try lia;
    (split; [lia | split; [destruct r; lia | split; [exact Hs' | lia]]]).
Qed.

Lemma iter_pos_shr_inv M p : ∀ k mrs,
  0 <= k -> shr_inv M k mrs -> shr_inv M (k + Z.pos p) (SpecFloat.iter_pos shr_1 p mrs).
Proof.
  induction p as [p IH|p IH|]; intros k mrs Hk Hinv; simpl.
  - replace (k + Z.pos p~1) with (k + 1 + Z.pos p + Z.pos p) by lia.
    apply IH; [lia|]. apply IH; [lia|]. by apply shr_1_inv.
  - replace (k + Z.pos p~0) with (k + Z.pos p + Z.pos p) by lia.
    apply IH; [lia|]. by apply IH.
  - by apply shr_1_inv.
Qed.

Lemma shr_round M n mrs :
  0 <= n -> shr_inv M n mrs ->
  shr_m mrs = M / 2 ^ n
  ∧ 0 <= round_nearest_even (shr_m mrs) (loc_of_shr_record mrs)
  ∧ rnd_spec (round_nearest_even (shr_m mrs) (loc_of_shr_record mrs) * 2 ^ n)
             M (2 ^ n).
Proof.
  intros Hn (u & HM & Hu & Hs & Hm).
  destruct mrs as [m r s]. simpl in *.
  assert (Hp : 2 ^ (n + 1) = 2 * 2 ^ n) by (rewrite Z.pow_add_r by lia; lia).
  assert (Hg : 0 < 2 ^ n) by (apply Z.pow_pos_nonneg; lia).
  rewrite Hp in HM.
  set (rho := M - m * 2 ^ n).
  assert (Hrho : 0 <= rho < 2 ^ n) by (subst rho; destruct r; lia).
  assert (Hdiv : M / 2 ^ n = m).
  { symmetry. apply (Z.div_unique_pos M (2 ^ n) m rho); [lia | subst rho; lia]. }
  assert (Hmod : M mod 2 ^ n = rho).
  { symmetry. apply (Z.mod_unique_pos M (2 ^ n) m rho); [lia | subst rho; lia]. }
  split; [done|]. unfold rnd_spec. rewrite Hdiv, Hmod.
  destruct r, s; simpl.
  - split; [lia|]. right. split; [lia | subst rho; lia].
  - destruct (Z.even m); (split; [lia|]); [by left | right].
    split; [lia | subst rho; lia].
  - split; [lia|]. by left.
  - split; [lia|]. by left.
Qed.

Lemma rnd_spec_scale V X g k :
  0 < k -> 0 < g -> rnd_spec V X g -> rnd_spec (V * k) (X * k) (g * k).
Proof.
  intros Hk Hg. unfold rnd_spec.
  rewrite Z.div_mul_cancel_r by lia. rewrite Z.mul_mod_distr_r by lia.
  intros [->|[-> Hhalf]]; [left; ring | right]. split; [ring | nia].
Qed.

Lemma shr_exact M e n :
  0 <= M ->
  shr_inv M (Z.max n 0) (shr (Build_shr_record M false false) e n).1
  ∧ (shr (Build_shr_record M false false) e n).2 = e + Z.max n 0.
Proof.
  intros HM. destruct n as [|p|p]; simpl.
  - split; [by apply shr_inv_start | lia].
  - split; [|lia].
    apply (iter_pos_shr_inv M p 0); [lia | by apply shr_inv_start].
  - split; [by apply shr_inv_start | lia].
Qed.

Lemma f32_round_aux_unfold sx mx ex lx :
  f32_round_aux sx mx ex lx =
  f32_pack sx (round_nearest_even (shr_m (shr_fexp f32_prec f32_emax mx ex lx).1)
                 (loc_of_shr_record (shr_fexp f32_prec f32_emax mx ex lx).1))
              (shr_fexp f32_prec f32_emax mx ex lx).2.
Proof.
  unfold f32_round_aux, binary_round_aux, f32_pack.
  by destruct (shr_fexp f32_prec f32_emax mx ex lx).
Qed.

Lemma f32_bounded_intro m e :
  f32_fexp (Z.pos (digits2_pos m) + e) = e -> e <= 104 -> f32_bounded m e = true.
Proof.
  intros Hc He. unfold f32_bounded, bounded, canonical_mantissa.
  fold f32_fexp. rewrite Hc, Z.eqb_refl. simpl. apply Z.leb_le. exact He.
Qed.

Lemma f32_pack_spec sx m e :
  -149 <= e < 104 ->
  (2 ^ 23 <= m <= 2 ^ 24) ∨ (e = -149 ∧ 0 <= m <= 2 ^ 23) ->
  f32_rep (f32_pack sx m e) sx (m * 2 ^ (e + f32_scale)).
Proof.
  intros He Hm. unfold f32_pack, shr_fexp. simpl shr_record_of_loc.
  change (2 ^ 23) with 8388608 in *. change (2 ^ 24) with 16777216 in *.
  destruct m as [|p|p]; [| |lia].
  - (* the mantissa is zero *)
    left. simpl Zdigits2. fold f32_fexp. rewrite f32_fexp_eq.
    replace (Z.max (0 + e - 24) (-149) - e) with (-149 - e) by lia.
    destruct (-149 - e) as [|q|q] eqn:E; try lia; done.
  - simpl Zdigits2. fold f32_fexp. rewrite f32_fexp_eq.
    destruct (Z.eq_dec (Z.pos p) 16777216) as [Htop|Htop].
    + (* the rounding carried into a 25th bit *)
      assert (Hp : p = 16777216%positive) by (apply Pos2Z.inj; exact Htop).
      subst p. change (Z.pos (digits2_pos 16777216)) with 25.
      replace (Z.max (25 + e - 24) (-149) - e) with 1 by lia. simpl.
      destruct (Z.leb_spec (e + 1) (f32_emax - f32_prec)) as [_|Hov];
        [|unfold f32_emax, f32_prec in Hov; lia].
      right. exists 8388608%positive, (e + 1). split; [done|]. split.
      * apply f32_bounded_intro; [|lia]. rewrite f32_fexp_eq.
        change (Z.pos (digits2_pos 8388608)) with 24. lia.
      * replace (e + 1 + f32_scale) with (e + f32_scale + 1) by lia.
        rewrite (Z.pow_add_r 2 (e + f32_scale) 1) by (unfold f32_scale; lia).
        rewrite Z.pow_1_r. lia.
    + pose proof (digits2_bounds p) as [Dlo Dhi].
      set (d := Z.pos (digits2_pos p)) in *.
      assert (Hd : d <= 24).
      { assert (Z.pos p < 2 ^ 24) by (change (2 ^ 24) with 16777216; lia).
        destruct (Z.le_gt_cases d 24); [done|].
        assert (2 ^ 24 <= 2 ^ (d - 1)) by (apply Z.pow_le_mono_r; lia). lia. }
      change 8388608 with (2 ^ 23) in Hm.
      assert (Hfexp : Z.max (d + e - 24) (-149) = e).
      { destruct Hm as [[Hlo _]|[-> _]]; [|lia].
        assert (24 <= d); [|lia].
        destruct (Z.le_gt_cases 24 d); [done|].
        assert (2 ^ d <= 2 ^ 23) by (apply Z.pow_le_mono_r; lia). lia. }
      rewrite Hfexp, Z.sub_diag. simpl.
      destruct (Z.leb_spec e (f32_emax - f32_prec)) as [_|Hov];
        [|unfold f32_emax, f32_prec in Hov; lia].
      right. exists p, e. split; [done|]. split; [|done].
      apply f32_bounded_intro; [|lia]. rewrite f32_fexp_eq. exact Hfexp.
Qed.

Lemma rnd_spec_cases V X g :
  0 < g -> rnd_spec (V * g) X g -> V = X / g ∨ V = X / g + 1.
Proof. intros Hg [H|[H _]]; [left | right]; nia. Qed.

(** [binary_round_aux] on an exact mantissa that is not shorter than the
    format asks for: the result is the value rounded to the format's grid
    at that magnitude. *)
Lemma f32_round_aux_spec sx mx ex :
  -298 <= ex ->
  ex <= f32_fexp (Z.pos (digits2_pos mx) + ex) ->
  f32_fexp (Z.pos (digits2_pos mx) + ex) < 104 ->
  ∃ V, f32_rep (f32_round_aux sx (Z.pos mx) ex loc_Exact) sx V
       ∧ rnd_spec V (Z.pos mx * 2 ^ (ex + f32_scale))
                  (2 ^ (f32_fexp (Z.pos (digits2_pos mx) + ex) + f32_scale)).
Proof.
  intros Hex Hn Hov. rewrite f32_round_aux_unfold.
  unfold shr_fexp. simpl shr_record_of_loc. simpl Zdigits2. fold f32_fexp.
  pose proof (digits2_bounds mx) as [Dlo Dhi].
  set (d := Z.pos (digits2_pos mx)) in *.
  set (e1 := f32_fexp (d + ex)) in *.
  set (n := e1 - ex).
  assert (Hn0 : 0 <= n) by (subst n; lia).
  destruct (shr_exact (Z.pos mx) ex n) as [Hinv He1]; [lia|].
  rewrite Z.max_l in Hinv, He1 by lia.
  destruct (shr_round _ _ _ Hn0 Hinv) as (Hq & Hm2 & Hspec).
  set (mrs := (shr _ ex n).1) in *.
  set (m2 := round_nearest_even (shr_m mrs) (loc_of_shr_record mrs)) in *.
  assert (Hg : 0 < 2 ^ n) by (apply Z.pow_pos_nonneg; lia).
  assert (Hk : 0 < 2 ^ (ex + f32_scale))
    by (apply Z.pow_pos_nonneg; unfold f32_scale; lia).
  assert (Hpow : 2 ^ (e1 + f32_scale) = 2 ^ n * 2 ^ (ex + f32_scale)).
  { rewrite <- Z.pow_add_r by (unfold f32_scale; lia). f_equal. subst n. lia. }
  assert (He1' : -149 <= e1) by (subst e1; rewrite f32_fexp_eq; lia).
  exists (m2 * 2 ^ (e1 + f32_scale)). split.
  - rewrite He1. replace (ex + n) with e1 by (subst n; lia).
    apply f32_pack_spec; [lia|].
    pose proof (rnd_spec_cases _ _ _ Hg Hspec) as Hcases.
    assert (Hqpos : 0 <= Z.pos mx / 2 ^ n) by (apply Z.div_pos; lia).
    destruct (Z.le_gt_cases (-149) (d + ex - 24)) as [Hnorm|Hsub].
    + (* a normal number: the quotient has 24 bits *)
      left. assert (Hnd : n = d - 24) by (subst n e1; rewrite f32_fexp_eq; lia).
      assert (P1 : 2 ^ (d - 1) = 2 ^ 23 * 2 ^ n).
      { rewrite <- Z.pow_add_r by lia. f_equal. lia. }
      assert (P2 : 2 ^ d = 2 ^ 24 * 2 ^ n).
      { rewrite <- Z.pow_add_r by lia. f_equal. lia. }
      assert (2 ^ 23 <= Z.pos mx / 2 ^ n)
        by (apply Z.div_le_lower_bound; lia).
      assert (Z.pos mx / 2 ^ n < 2 ^ 24)
        by (apply Z.div_lt_upper_bound; lia).
      lia.
    + (* a subnormal number: the quotient has fewer than 24 bits *)
      right. assert (He : e1 = -149) by (subst e1; rewrite f32_fexp_eq; lia).
      split; [done|].
      assert (Hdn : d <= n + 23) by (subst n; lia).
      assert (2 ^ d <= 2 ^ (n + 23)) by (apply Z.pow_le_mono_r; lia).
      assert (P : 2 ^ (n + 23) = 2 ^ n * 2 ^ 23) by (apply Z.pow_add_r; lia).
      assert (Z.pos mx / 2 ^ n < 2 ^ 23)
        by (apply Z.div_lt_upper_bound; lia).
      lia.
  - rewrite Hpow. rewrite Z.mul_assoc. by apply rnd_spec_scale.
Qed.

Lemma iter_xO_value m p : Z.pos (Pos.iter xO m p) = Z.pos m * 2 ^ Z.pos p.
Proof.
  change (Pos.iter xO m p) with (shift_pos p m).
  rewrite shift_pos_correct. change (Z.pow_pos 2 p) with (2 ^ Z.pos p). lia.
Qed.

Lemma shl_align_value mx ex ez :
  ez <= ex -> Z.pos (shl_align mx ex ez).1 = Z.pos mx * 2 ^ (ex - ez).
Proof.
  intros Hle. unfold shl_align.
  destruct (ez - ex) as [|q|q] eqn:E; simpl; try lia.
  - replace (ex - ez) with 0 by lia. simpl. lia.
  - rewrite iter_xO_value. f_equal. f_equal. lia.
Qed.

(** [binary_round]: as [binary_round_aux], for any exact mantissa. *)
Lemma f32_round_spec sx mx ex :
  -298 <= ex ->
  f32_fexp (Z.pos (digits2_pos mx) + ex) < 104 ->
  ∃ V, f32_rep (f32_round sx mx ex) sx V
       ∧ rnd_spec V (Z.pos mx * 2 ^ (ex + f32_scale))
                  (2 ^ (f32_fexp (Z.pos (digits2_pos mx) + ex) + f32_scale)).
Proof.
  intros Hex Hov. unfold f32_round, binary_round, shl_align. fold f32_fexp.
  pose proof (digits2_bounds mx) as [Dlo Dhi].
  set (d := Z.pos (digits2_pos mx)) in *.
  set (e1 := f32_fexp (d + ex)) in *.
  assert (He1 : -149 <= e1) by (subst e1; rewrite f32_fexp_eq; lia).
  destruct (e1 - ex) as [|q|q] eqn:E.
  - apply f32_round_aux_spec; fold d; fold e1; lia.
  - apply f32_round_aux_spec; fold d; fold e1; lia.
  - (* the mantissa is short: shift it up to the format's exponent *)
    assert (Hq : ex = e1 + Z.pos q) by lia.
    assert (Hval : Z.pos (Pos.iter xO mx q) = Z.pos mx * 2 ^ Z.pos q)
      by apply iter_xO_value.
    assert (Hdig : Z.pos (digits2_pos (Pos.iter xO mx q)) = d + Z.pos q).
    { apply digits2_unique. rewrite Hval.
      replace (d + Z.pos q - 1) with (d - 1 + Z.pos q) by lia.
      rewrite !Z.pow_add_r by lia.
      assert (0 < 2 ^ Z.pos q) by (apply Z.pow_pos_nonneg; lia). nia. }
    assert (Hsame : d + Z.pos q + e1 = d + ex) by lia.
    destruct (f32_round_aux_spec sx (Pos.iter xO mx q) e1) as (V & Hrep & Hspec).
    + lia.
    + rewrite Hdig, Hsame. fold e1. lia.
    + rewrite Hdig, Hsame. fold e1. lia.
    + exists V. split; [exact Hrep|].
      rewrite Hdig, Hsame, Hval in Hspec. fold e1 in Hspec.
      replace (Z.pos mx * 2 ^ (ex + f32_scale))
        with (Z.pos mx * 2 ^ Z.pos q * 2 ^ (e1 + f32_scale)); [exact Hspec|].
      rewrite <- Z.mul_assoc, <- Z.pow_add_r by (unfold f32_scale; lia).
      f_equal. f_equal. lia.
Qed.

(** ** Consequences of rounding to a grid *)

Lemma rnd_nonneg V X g : 0 < g -> 0 <= X -> rnd_spec V X g -> 0 <= V.
Proof.
  intros Hg HX Hspec. assert (0 <= X / g) by (apply Z.div_pos; lia).
  destruct Hspec as [->|[-> _]]; nia.
Qed.

Lemma rnd_le V X g Y :
  0 < g -> rnd_spec V X g -> X <= Y -> (g | Y) -> V <= Y.
Proof.
  intros Hg Hspec HXY [y ->].
  pose proof (Z.div_mod X g ltac:(lia)) as Hdm.
  pose proof (Z.mod_pos_bound X g Hg) as Hmod.
  set (q := X / g) in *. set (r := X mod g) in *.
  destruct Hspec as [->|[-> Hhalf]]; [nia|].
  assert (q < y) by nia. nia.
Qed.

Lemma rnd_lt_next V X g : 0 < g -> rnd_spec V X g -> V < X + g.
Proof.
  intros Hg Hspec.
  pose proof (Z.div_mod X g ltac:(lia)) as Hdm.
  pose proof (Z.mod_pos_bound X g Hg) as Hmod.
  destruct Hspec as [->|[-> Hhalf]]; nia.
Qed.

Lemma rnd_down V X g :
  0 < g -> rnd_spec V X g -> 2 * (X mod g) < g -> V = X / g * g.
Proof. intros Hg [->|[-> Hhalf]] Hlt; [done | lia]. Qed.

(** ** Floats of the format *)

Lemma f32_bounded_elim m e :
  f32_bounded m e = true ->
  f32_fexp (Z.pos (digits2_pos m) + e) = e ∧ -149 <= e <= 104
  ∧ Z.pos (digits2_pos m) <= 24.
Proof.
  unfold f32_bounded, bounded, canonical_mantissa. fold f32_fexp.
  intros [Hc He]%andb_true_iff. apply Z.eqb_eq in Hc. apply Z.leb_le in He.
  unfold f32_emax, f32_prec in He. rewrite f32_fexp_eq in *. lia.
Qed.

Lemma pow2_pos k : 0 <= k -> 0 < 2 ^ k.
Proof. intros. apply Z.pow_pos_nonneg; lia. Qed.

Lemma pow2_divide a b : 0 <= a <= b -> (2 ^ a | 2 ^ b).
Proof.
  intros H. exists (2 ^ (b - a)). rewrite <- Z.pow_add_r by lia. f_equal. lia.
Qed.

(** A float of the format that is not below a value lies on the grid the
    value is rounded to. *)
Lemma grid_le mx ex my ey :
  f32_bounded my ey = true -> -298 <= ex ->
  Z.pos mx * 2 ^ (ex + f32_scale) <= Z.pos my * 2 ^ (ey + f32_scale) ->
  f32_fexp (Z.pos (digits2_pos mx) + ex) <= ey.
Proof.
  intros (Hc & He & Hd)%f32_bounded_elim Hex Hle.
  pose proof (digits2_bounds mx) as [Xlo _].
  pose proof (digits2_bounds my) as [_ Yhi].
  set (dx := Z.pos (digits2_pos mx)) in *.
  set (dy := Z.pos (digits2_pos my)) in *.
  assert (0 < dx) by (subst dx; lia). assert (0 < dy) by (subst dy; lia).
  destruct (Z.le_gt_cases (dx + ex) (dy + ey)) as [Hmag|Hmag].
  - rewrite f32_fexp_eq in *. lia.
  - exfalso. unfold f32_scale in *.
    assert (Px : 0 < 2 ^ (ex + 298)) by (apply pow2_pos; lia).
    assert (Py : 0 < 2 ^ (ey + 298)) by (apply pow2_pos; lia).
    assert (H1 : Z.pos my * 2 ^ (ey + 298) < 2 ^ dy * 2 ^ (ey + 298))
      by (apply Z.mul_lt_mono_pos_r; lia).
    assert (H2 : 2 ^ (dx - 1) * 2 ^ (ex + 298) <= Z.pos mx * 2 ^ (ex + 298))
      by (apply Z.mul_le_mono_nonneg_r; lia).
    rewrite <- Z.pow_add_r in H1, H2 by lia.
    assert (2 ^ (dy + (ey + 298)) <= 2 ^ (dx - 1 + (ex + 298)))
      by (apply Z.pow_le_mono_r; lia).
    lia.
Qed.

Lemma grid_divides mx ex my ey :
  f32_bounded my ey = true -> -298 <= ex ->
  Z.pos mx * 2 ^ (ex + f32_scale) <= Z.pos my * 2 ^ (ey + f32_scale) ->
  (2 ^ (f32_fexp (Z.pos (digits2_pos mx) + ex) + f32_scale)
   | Z.pos my * 2 ^ (ey + f32_scale)).
Proof.
  intros Hb Hex Hle. pose proof (grid_le _ _ _ _ Hb Hex Hle) as Hg.
  apply Z.divide_mul_r. apply pow2_divide.
  rewrite f32_fexp_eq in *. unfold f32_scale. lia.
Qed.

Lemma f32_one_bounded : f32_bounded 8388608 (-23) = true.
Proof. reflexivity. Qed.

Lemma digits2_mul_lower mx my :
  Z.pos (digits2_pos mx) + Z.pos (digits2_pos my) - 1
  <= Z.pos (digits2_pos (mx * my)).
Proof.
  pose proof (digits2_bounds mx) as [Xlo _].
  pose proof (digits2_bounds my) as [Ylo _].
  pose proof (digits2_bounds (mx * my)) as [_ Phi].
  set (dx := Z.pos (digits2_pos mx)) in *.
  set (dy := Z.pos (digits2_pos my)) in *.
  set (dp := Z.pos (digits2_pos (mx * my))) in *.
  assert (0 < dx) by (subst dx; lia). assert (0 < dy) by (subst dy; lia).
  assert (2 ^ (dx - 1) * 2 ^ (dy - 1) <= Z.pos mx * Z.pos my)
    by (apply Z.mul_le_mono_nonneg; try lia; apply Z.pow_nonneg; lia).
  rewrite <- Z.pow_add_r in * by lia. rewrite Pos2Z.inj_mul in Phi.
  assert (Hlt : 2 ^ (dx - 1 + (dy - 1)) < 2 ^ dp) by lia.
  apply Z.pow_lt_mono_r_iff in Hlt; [lia | lia | subst dp; lia].
Qed.

Lemma digits2_mul_upper mx my :
  Z.pos (digits2_pos (mx * my))
  <= Z.pos (digits2_pos mx) + Z.pos (digits2_pos my).
Proof.
  pose proof (digits2_bounds mx) as [_ Xhi].
  pose proof (digits2_bounds my) as [_ Yhi].
  pose proof (digits2_bounds (mx * my)) as [Plo _].
  set (dx := Z.pos (digits2_pos mx)) in *.
  set (dy := Z.pos (digits2_pos my)) in *.
  set (dp := Z.pos (digits2_pos (mx * my))) in *.
  assert (0 < dx) by (subst dx; lia). assert (0 < dy) by (subst dy; lia).
  assert (0 < dp) by (subst dp; lia).
  rewrite Pos2Z.inj_mul in Plo.
  assert (Z.pos mx * Z.pos my < 2 ^ dx * 2 ^ dy)
    by (apply Z.mul_lt_mono_nonneg; lia).
  rewrite <- Z.pow_add_r in * by lia.
  assert (Hlt : 2 ^ (dp - 1) < 2 ^ (dx + dy)) by lia.
  apply Z.pow_lt_mono_r_iff in Hlt; lia.
Qed.

Lemma magnitude_le mz ez k :
  -298 <= ez -> Z.pos mz * 2 ^ (ez + f32_scale) < 2 ^ (k + f32_scale) ->
  Z.pos (digits2_pos mz) + ez <= k.
Proof.
  intros Hez Hlt. pose proof (digits2_bounds mz) as [Dlo _].
  set (d := Z.pos (digits2_pos mz)) in *. unfold f32_scale in *.
  assert (0 < d) by (subst d; lia).
  assert (P : 0 < 2 ^ (ez + 298)) by (apply pow2_pos; lia).
  assert (H1 : 2 ^ (d - 1) * 2 ^ (ez + 298) <= Z.pos mz * 2 ^ (ez + 298))
    by (apply Z.mul_le_mono_nonneg_r; lia).
  rewrite <- Z.pow_add_r in H1 by lia.
  destruct (Z.le_gt_cases 0 (k + 298)) as [Hk|Hk].
  - assert (Hp : 2 ^ (d - 1 + (ez + 298)) < 2 ^ (k + 298)) by lia.
    apply Z.pow_lt_mono_r_iff in Hp; lia.
  - rewrite (Z.pow_neg_r 2 (k + 298)) in Hlt by lia. lia.
Qed.

Lemma magnitude_gt mz ez k :
  -298 <= ez -> 2 ^ (k + f32_scale) <= Z.pos mz * 2 ^ (ez + f32_scale) ->
  k < Z.pos (digits2_pos mz) + ez.
Proof.
  intros Hez Hle. pose proof (digits2_bounds mz) as [_ Dhi].
  set (d := Z.pos (digits2_pos mz)) in *. unfold f32_scale in *.
  assert (0 < d) by (subst d; lia).
  assert (P : 0 < 2 ^ (ez + 298)) by (apply pow2_pos; lia).
  assert (H1 : Z.pos mz * 2 ^ (ez + 298) < 2 ^ d * 2 ^ (ez + 298))
    by (apply Z.mul_lt_mono_pos_r; lia).
  rewrite <- Z.pow_add_r in H1 by lia.
  assert (Hp : 2 ^ (k + 298) < 2 ^ (d + (ez + 298))) by lia.
  apply Z.pow_lt_mono_r_iff in Hp; lia.
Qed.

Lemma align_scale m e ez :
  -298 <= ez <= e ->
  Z.pos m * 2 ^ (e - ez) * 2 ^ (ez + f32_scale) = Z.pos m * 2 ^ (e + f32_scale).
Proof.
  intros H. unfold f32_scale. rewrite <- Z.mul_assoc, <- Z.pow_add_r by lia.
  f_equal. f_equal. lia.
Qed.

(** [binary_normalize] on a mantissa that is not negative. *)
Lemma f32_normalize_spec z ez :
  -298 <= ez -> 0 <= z -> z * 2 ^ (ez + f32_scale) < 2 ^ (1 + f32_scale) ->
  ∃ V, f32_rep (f32_normalize z ez false) false V
       ∧ ((z = 0 ∧ V = 0)
          ∨ ∃ mz, z = Z.pos mz
                  ∧ rnd_spec V (z * 2 ^ (ez + f32_scale))
                      (2 ^ (f32_fexp (Z.pos (digits2_pos mz) + ez) + f32_scale))).
Proof.
  intros Hez Hz Hlt. destruct z as [|mz|mz]; [| |lia].
  - exists 0. split; [by left | by left].
  - pose proof (magnitude_le mz ez 1 Hez Hlt) as Hmag.
    destruct (f32_round_spec false mz ez) as (V & Hrep & Hspec);
      [lia | rewrite f32_fexp_eq; lia |].
    exists V. split; [exact Hrep|]. right. by exists mz.
Qed.

Lemma f32_one_val_eq : Z.pos 8388608 * 2 ^ (-23 + f32_scale) = f32_one_val.
Proof. reflexivity. Qed.

Lemma f32_one_rep : f32_rep f32_one false f32_one_val.
Proof. right. exists 8388608%positive, (-23). by repeat split. Qed.

(** [binary_normalize] on a value below 1 + 2^-24: the result is at most 1,
    and less than 2^-24 above a value below 1. *)
Lemma f32_normalize_unit z ez :
  -298 <= ez -> 0 <= z ->
  z * 2 ^ (ez + f32_scale) < f32_one_val + f32_ulp_val ->
  ∃ V, f32_rep (f32_normalize z ez false) false V
       ∧ 0 <= V <= f32_one_val
       ∧ (z * 2 ^ (ez + f32_scale) < f32_one_val ->
          V < z * 2 ^ (ez + f32_scale) + f32_ulp_val).
Proof.
  intros Hez Hz Hlt.
  assert (Hk : 0 < 2 ^ (ez + f32_scale))
    by (apply pow2_pos; unfold f32_scale; lia).
  destruct (f32_normalize_spec z ez Hez Hz) as (V & Hrep & Hspec).
  { change (2 ^ (1 + f32_scale)) with (2 * f32_one_val).
    assert (f32_ulp_val < f32_one_val) by reflexivity. lia. }
  exists V. split; [exact Hrep|].
  destruct Hspec as [[-> ->]|(mz & -> & Hspec)].
  { split; [by split | by intros _]. }
  set (X := Z.pos mz * 2 ^ (ez + f32_scale)) in *.
  set (e1 := f32_fexp (Z.pos (digits2_pos mz) + ez)) in *.
  assert (He1 : -149 <= e1) by (subst e1; rewrite f32_fexp_eq; lia).
  assert (Hg : 0 < 2 ^ (e1 + f32_scale))
    by (apply pow2_pos; unfold f32_scale; lia).
  assert (HV : 0 <= V) by (apply (rnd_nonneg V X _ Hg); [lia | done]).
  destruct (Z.le_gt_cases X f32_one_val) as [Hle|Hgt].
  - split; [split; [done|]|].
    + apply (rnd_le V X _ _ Hg Hspec Hle). rewrite <- f32_one_val_eq.
      apply grid_divides; [apply f32_one_bounded | done |].
      by rewrite f32_one_val_eq.
    + intros Hone. pose proof (rnd_lt_next V X _ Hg Hspec) as Hnext.
      assert (Hmag : Z.pos (digits2_pos mz) + ez <= 0)
        by (apply magnitude_le; [done | exact Hone]).
      assert (2 ^ (e1 + f32_scale) <= f32_ulp_val); [|lia].
      apply Z.pow_le_mono_r; [lia|].
      subst e1. rewrite f32_fexp_eq. unfold f32_scale. lia.
  - split; [|lia]. split; [done|].
    assert (Hmag : Z.pos (digits2_pos mz) + ez = 1).
    { assert (Z.pos (digits2_pos mz) + ez <= 1).
      { apply magnitude_le; [done|].
        change (2 ^ (1 + f32_scale)) with (2 * f32_one_val).
        assert (f32_ulp_val < f32_one_val) by reflexivity. lia. }
      assert (0 < Z.pos (digits2_pos mz) + ez).
      { apply magnitude_gt; [done|].
        change (2 ^ (0 + f32_scale)) with f32_one_val. lia. }
      lia. }
    assert (E1 : e1 = -23) by (subst e1; rewrite Hmag; reflexivity).
    rewrite E1 in Hspec, Hg.
    set (g := 2 ^ (-23 + f32_scale)) in *.
    assert (Hone : f32_one_val = g * 8388608) by reflexivity.
    assert (Hulp : g = 2 * f32_ulp_val) by reflexivity.
    assert (Hq : X / g = 8388608).
    { symmetry. apply (Z.div_unique_pos X g 8388608 (X - f32_one_val)); lia. }
    assert (Hr : X mod g = X - f32_one_val).
    { symmetry. apply (Z.mod_unique_pos X g 8388608 (X - f32_one_val)); lia. }
    rewrite (rnd_down V X g Hg Hspec) by lia. rewrite Hq. lia.
Qed.

Lemma unit_exp m e :
  -298 <= e -> Z.pos m * 2 ^ (e + f32_scale) <= f32_one_val -> e <= 0.
Proof.
  intros He Hle.
  assert (Z.pos (digits2_pos m) + e <= 1); [|lia].
  apply magnitude_le; [done|].
  change (2 ^ (1 + f32_scale)) with (2 * f32_one_val).
  assert (0 < f32_one_val) by reflexivity. lia.
Qed.

(** [1.0f - l] for a level [l] between 0 and 1. *)
Lemma f32_sub_one_unit l v :
  f32_rep l false v -> 0 <= v <= f32_one_val ->
  ∃ V, f32_rep (f32_sub f32_one l) false V
       ∧ 0 <= V <= f32_one_val ∧ V + v < f32_one_val + f32_ulp_val.
Proof.
  intros [[-> ->]|(m & e & -> & Hb & ->)] Hv.
  - exists f32_one_val. split; [apply f32_one_rep|].
    assert (0 < f32_ulp_val) by reflexivity.
    assert (0 < f32_one_val) by reflexivity. lia.
  - pose proof (f32_bounded_elim _ _ Hb) as (_ & He & _).
    unfold f32_sub, f32_one, SFsub, cond_Zopp.
    change (binary_normalize f32_prec f32_emax) with f32_normalize.
    set (ez := Z.min (-23) e).
    rewrite !shl_align_value by (subst ez; lia).
    set (z := Z.pos 8388608 * 2 ^ (-23 - ez) - Z.pos m * 2 ^ (e - ez)).
    assert (Hk : 0 < 2 ^ (ez + f32_scale))
      by (apply pow2_pos; unfold f32_scale; subst ez; lia).
    assert (Hm : 0 < Z.pos m * 2 ^ (e + f32_scale)).
    { apply Z.mul_pos_pos; [lia|]. apply pow2_pos. unfold f32_scale. lia. }
    assert (HX : z * 2 ^ (ez + f32_scale)
                 = f32_one_val - Z.pos m * 2 ^ (e + f32_scale)).
    { subst z. rewrite Z.mul_sub_distr_r.
      rewrite !align_scale by (subst ez; lia). by rewrite f32_one_val_eq. }
    assert (Hz : 0 <= z) by nia.
    assert (0 < f32_ulp_val) by reflexivity.
    destruct (f32_normalize_unit z ez) as (V & Hrep & HV & Hnext);
      [subst ez; lia | done | lia |].
    exists V. split; [exact Hrep|]. split; [done|].
    rewrite HX in Hnext. lia.
Qed.

(** [x * a] for a factor [a] between 0 and 1: not above [x]. *)
Lemma f32_mul_unit sx mx ex ma ea :
  f32_bounded mx ex = true -> f32_bounded ma ea = true ->
  Z.pos mx * 2 ^ (ex + f32_scale) <= f32_one_val ->
  Z.pos ma * 2 ^ (ea + f32_scale) <= f32_one_val ->
  ∃ V, f32_rep (f32_mul (S754_finite sx mx ex) (S754_finite false ma ea)) sx V
       ∧ 0 <= V <= Z.pos mx * 2 ^ (ex + f32_scale).
Proof.
  intros Hbx Hba Hx Ha.
  pose proof (f32_bounded_elim _ _ Hbx) as (Hcx & Hex & Hdx).
  pose proof (f32_bounded_elim _ _ Hba) as (Hca & Hea & Hda).
  pose proof (unit_exp mx ex ltac:(lia) Hx) as Hex0.
  pose proof (unit_exp ma ea ltac:(lia) Ha) as Hea0.
  pose proof (digits2_mul_lower mx ma) as Hlo.
  pose proof (digits2_mul_upper mx ma) as Hhi.
  unfold f32_mul, SFmul. rewrite xorb_false_r.
  change (binary_round_aux f32_prec f32_emax) with f32_round_aux.
  rewrite f32_fexp_eq in Hcx, Hca.
  destruct (f32_round_aux_spec sx (mx * ma) (ex + ea)) as (V & Hrep & Hspec);
    [lia | rewrite f32_fexp_eq; lia | rewrite f32_fexp_eq; lia |].
  exists V. split; [exact Hrep|].
  set (X := Z.pos (mx * ma) * 2 ^ (ex + ea + f32_scale)) in *.
  set (g := 2 ^ (f32_fexp (Z.pos (digits2_pos (mx * ma)) + (ex + ea))
                 + f32_scale)) in *.
  assert (Hg : 0 < g)
    by (subst g; apply pow2_pos; rewrite f32_fexp_eq; unfold f32_scale; lia).
  assert (Px : 0 < 2 ^ (ex + f32_scale))
    by (apply pow2_pos; unfold f32_scale; lia).
  assert (Pa : 0 < 2 ^ (ea + f32_scale))
    by (apply pow2_pos; unfold f32_scale; lia).
  assert (HXle : X <= Z.pos mx * 2 ^ (ex + f32_scale)).
  { assert (Hprod : X * f32_one_val
                    = Z.pos mx * 2 ^ (ex + f32_scale)
                      * (Z.pos ma * 2 ^ (ea + f32_scale))).
    { subst X. unfold f32_one_val, f32_scale. rewrite Pos2Z.inj_mul.
      transitivity (Z.pos mx * Z.pos ma
                    * (2 ^ (ex + ea + 298) * 2 ^ 298)); [ring|].
      transitivity (Z.pos mx * Z.pos ma
                    * (2 ^ (ex + 298) * 2 ^ (ea + 298))); [|ring].
      f_equal. rewrite <- !Z.pow_add_r by lia. f_equal. lia. }
    assert (0 < f32_one_val) by reflexivity. nia. }
  split.
  - apply (rnd_nonneg V X g Hg); [subst X; lia | done].
  - apply (rnd_le V X g _ Hg Hspec HXle).
    subst g. apply grid_divides; [done | lia | done].
Qed.

(** [l + p] for a level [l] and an increment [p] that do not sum to
    1 + 2^-24 or more. *)
Lemma f32_add_unit l p vl vp :
  f32_rep l false vl -> f32_rep p false vp ->
  0 <= vl <= f32_one_val -> 0 <= vp <= f32_one_val ->
  vl + vp < f32_one_val + f32_ulp_val ->
  ∃ V, f32_rep (f32_add l p) false V ∧ 0 <= V <= f32_one_val.
Proof.
  intros [[-> ->]|(ml & el & -> & Hbl & ->)]
         [[-> ->]|(mp & ep & -> & Hbp & ->)] Hl Hp Hsum.
  - exists 0. split; [by left | lia].
  - eexists. split; [right; by eauto | lia].
  - eexists. split; [right; by eauto | lia].
  - pose proof (f32_bounded_elim _ _ Hbl) as (_ & Hel & _).
    pose proof (f32_bounded_elim _ _ Hbp) as (_ & Hep & _).
    unfold f32_add, SFadd, cond_Zopp.
    change (binary_normalize f32_prec f32_emax) with f32_normalize.
    set (ez := Z.min el ep).
    rewrite !shl_align_value by (subst ez; lia).
    set (z := Z.pos ml * 2 ^ (el - ez) + Z.pos mp * 2 ^ (ep - ez)).
    assert (HX : z * 2 ^ (ez + f32_scale)
                 = Z.pos ml * 2 ^ (el + f32_scale)
                   + Z.pos mp * 2 ^ (ep + f32_scale)).
    { subst z. rewrite Z.mul_add_distr_r.
      by rewrite !align_scale by (subst ez; lia). }
    assert (Hz : 0 <= z).
    { subst z. apply Z.add_nonneg_nonneg;
        (apply Z.mul_nonneg_nonneg; [lia | apply Z.pow_nonneg; lia]). }
    destruct (f32_normalize_unit z ez) as (V & Hrep & HV & _);
      [subst ez; lia | done | lia |].
    by exists V.
Qed.

(** [l + p] for a level [l] and a decrement [p] not larger than [l]. *)
Lemma f32_add_neg_unit ml el p vp :
  f32_bounded ml el = true ->
  Z.pos ml * 2 ^ (el + f32_scale) <= f32_one_val ->
  f32_rep p true vp -> 0 <= vp <= Z.pos ml * 2 ^ (el + f32_scale) ->
  ∃ V, f32_rep (f32_add (S754_finite false ml el) p) false V
       ∧ 0 <= V <= f32_one_val.
Proof.
  intros Hbl Hl [[-> ->]|(mp & ep & -> & Hbp & ->)] Hp.
  - eexists. split; [right; by eauto|].
    split; [|done]. apply Z.mul_nonneg_nonneg; [lia | apply Z.pow_nonneg; lia].
  - pose proof (f32_bounded_elim _ _ Hbl) as (_ & Hel & _).
    pose proof (f32_bounded_elim _ _ Hbp) as (_ & Hep & _).
    unfold f32_add, SFadd, cond_Zopp.
    change (binary_normalize f32_prec f32_emax) with f32_normalize.
    set (ez := Z.min el ep).
    rewrite !shl_align_value by (subst ez; lia).
    set (z := Z.pos ml * 2 ^ (el - ez) + - (Z.pos mp * 2 ^ (ep - ez))).
    assert (Hk : 0 < 2 ^ (ez + f32_scale))
      by (apply pow2_pos; unfold f32_scale; subst ez; lia).
    assert (HX : z * 2 ^ (ez + f32_scale)
                 = Z.pos ml * 2 ^ (el + f32_scale)
                   - Z.pos mp * 2 ^ (ep + f32_scale)).
    { subst z. rewrite Z.mul_add_distr_r, Z.mul_opp_l.
      rewrite !align_scale by (subst ez; lia). lia. }
    assert (Hz : 0 <= z) by nia.
    assert (Hmp : 0 < Z.pos mp * 2 ^ (ep + f32_scale)).
    { apply Z.mul_pos_pos; [lia|]. apply pow2_pos. unfold f32_scale. lia. }
    assert (0 < f32_ulp_val) by reflexivity.
    destruct (f32_normalize_unit z ez) as (V & Hrep & HV & _);
      [subst ez; lia | done | lia |].
    by exists V.
Qed.

(** One update of the filter keeps the level between 0 and 1. *)
Lemma filter_update_unit a raw l :
  unit_factor a -> unit_level l ->
  unit_level (f32_add l (f32_mul (f32_sub (float_of_level raw) l) a)).
Proof.
  intros (ma & ea & -> & Hba & Ha) (v & Hl & Hv). destruct raw; simpl.
  - (* the sample is 1.0 *)
    destruct (f32_sub_one_unit l v Hl Hv) as (Vd & Hd & HVd & Hclose).
    assert (Hp : ∃ Vp, f32_rep (f32_mul (f32_sub f32_one l)
                                  (S754_finite false ma ea)) false Vp
                       ∧ 0 <= Vp <= Vd).
    { destruct Hd as [[-> ->]|(md & ed & -> & Hbd & ->)].
      - exists 0. split; [by left | lia].
      - apply f32_mul_unit; [done | done | lia | done]. }
    destruct Hp as (Vp & Hp & HVp).
    apply (f32_add_unit l _ v Vp); try done; lia.
  - (* the sample is 0.0 *)
    destruct Hl as [[-> ->]|(m & e & -> & Hb & ->)].
    + exists 0. split; [by left | done].
    + change (f32_sub f32_zero (S754_finite false m e))
        with (S754_finite true m e).
      destruct (f32_mul_unit true m e ma ea) as (Vp & Hp & HVp);
        [done | done | lia | done |].
      apply (f32_add_neg_unit m e _ Vp); try done; lia.
Qed.

Lemma unit_level_zero : unit_level f32_zero.
Proof. exists 0. split; [by left | done]. Qed.

Lemma compare_cont_Eq m n : Pos.compare_cont Eq m n = (m ?= n)%positive.
Proof. reflexivity. Qed.

Lemma unit_level_le l :
  unit_level l -> SFleb f32_zero l = true ∧ SFleb l f32_one = true.
Proof.
  intros (v & [[-> ->]|(m & e & -> & Hb & ->)] & Hv); [done|].
  split; [done|].
  pose proof (f32_bounded_elim _ _ Hb) as (Hc & He & Hd).
  pose proof (digits2_bounds m) as [Dlo Dhi].
  rewrite f32_fexp_eq in Hc.
  unfold SFleb, SFcompare, f32_one.
  destruct (Z.compare_spec e (-23)) as [->|Hlt|Hgt]; [|done|].
  - rewrite <- f32_one_val_eq in Hv.
    destruct Hv as [_ Hv].
    apply Z.mul_le_mono_pos_r in Hv; [|apply pow2_pos; unfold f32_scale; lia].
    rewrite compare_cont_Eq.
    destruct (Pos.compare_spec m 8388608) as [?|?|?]; [done|done|lia].
  - exfalso.
    assert (Hdig : Z.pos (digits2_pos m) = 24) by lia.
    rewrite Hdig in Dlo.
    assert (Hp : 2 ^ (-22 + f32_scale) <= 2 ^ (e + f32_scale))
      by (apply Z.pow_le_mono_r; unfold f32_scale; lia).
    assert (f32_one_val < 2 ^ (24 - 1) * 2 ^ (-22 + f32_scale)) by reflexivity.
    assert (0 < 2 ^ (e + f32_scale)) by (apply pow2_pos; unfold f32_scale; lia).
    nia.
Qed.

Lemma unit_factor_intro a :
  valid_binary f32_prec f32_emax a = true ->
  SFltb f32_zero a = true -> SFleb a f32_one = true -> unit_factor a.
Proof.
  destruct a as [s|s| |s m e]; try done; [by destruct s|].
  intros Hb Hpos Hle. destruct s; [done|].
  exists m, e. split; [done|]. split; [exact Hb|].
  pose proof (f32_bounded_elim _ _ Hb) as (Hc & He & Hd).
  pose proof (digits2_bounds m) as [Dlo Dhi].
  unfold SFleb, SFcompare, f32_one in Hle.
  destruct (Z.compare_spec e (-23)) as [->|Hlt|Hgt]; [| |done].
  - rewrite compare_cont_Eq in Hle.
    rewrite <- f32_one_val_eq.
    apply Z.mul_le_mono_nonneg_r;
      [apply Z.pow_nonneg; lia|].
    destruct (Pos.compare_spec m 8388608) as [?|?|?].
    + subst m. apply Z.le_refl.
    + apply Pos2Z.pos_le_pos. by apply Pos.lt_le_incl.
    + discriminate Hle.
  - assert (Z.pos m < 2 ^ 24).
    { assert (2 ^ Z.pos (digits2_pos m) <= 2 ^ 24)
        by (apply Z.pow_le_mono_r; lia). lia. }
    assert (Hp : 2 ^ (e + f32_scale) <= 2 ^ (-24 + f32_scale))
      by (apply Z.pow_le_mono_r; unfold f32_scale; lia).
    assert (f32_one_val = 2 ^ 24 * 2 ^ (-24 + f32_scale)) by reflexivity.
    assert (0 < 2 ^ (e + f32_scale)) by (apply pow2_pos; unfold f32_scale; lia).
    nia.
Qed.

(** ** The sketch as a whole *)

Lemma isTilted_frame cfg raw s :
  let s' := (isTilted cfg raw s).2 in
  state s' = state s ∧ ledIndex s' = ledIndex s ∧ timer s' = timer s
  ∧ modes s' = modes s ∧ pins s' = pins s.
Proof. done. Qed.

Lemma led_read_isTilted cfg raw now s :
  led_read cfg now (isTilted cfg raw s).2 = led_read cfg now s.
Proof. done. Qed.

(** A pass of [loop] that finds the stick lowered while a shot is under way
    is a [reset]. *)
Lemma loop_lowered cfg raw now s :
  (isTilted cfg raw s).1 = false → state s ≠ WAIT_FOR_LIFT →
  loop cfg raw now s = Some (reset cfg WAIT_FOR_LIFT (isTilted cfg raw s).2).
Proof.
  intros Ht Hst. unfold loop.
  pose proof (isTilted_frame cfg raw s) as (Hst' & _).
  destruct (isTilted cfg raw s) as [t s1]. simpl in *. subst t.
  rewrite decide_True; [done | congruence].
Qed.

(** With a single LED the sketch reads [LED_PINS[1]] once the first interval
    has passed: the array has to hold two pins at least. *)
Lemma single_led_reads_outside :
  let cfg := mkConfig 12 3 [4] 1500 500 20 5000 f32_0_5 f32_0_7 f32_0_3 in
  shotCycles cfg [0; 1500] (setup cfg power_on) = None.
Proof. reflexivity. Qed.

(** The filter keeps its level between 0 and 1 over any run of samples. *)
Lemma tilt_samples_unit cfg raws : ∀ s,
  unit_factor (LOW_PASS cfg) → unit_level (tiltLevel s) →
  unit_level (tiltLevel (tilt_samples cfg raws s)).
Proof.
  induction raws as [|raw rest IH]; intros s Ha Hl; [done|].
  apply IH; [done|]. by apply filter_update_unit.
Qed.

Lemma sketch_config_two_leds : 2 <= LED_COUNT sketch_config.
Proof. vm_compute. discriminate. Qed.

Lemma sketch_config_relay_apart :
  RELAIS_PIN sketch_config ∉ LED_PINS sketch_config.
Proof.
  simpl. rewrite !not_elem_of_cons. repeat split; try discriminate.
  apply not_elem_of_nil.
Qed.

Lemma reachable_loops cfg inputs : ∀ s s',
  reachable cfg s → loops cfg inputs s = Some s' → reachable cfg s'.
Proof.
  induction inputs as [|[raw now] rest IH]; intros s s' Hs; simpl.
  - by intros [= <-].
  - destruct (loop cfg raw now s) as [s1|] eqn:E; simpl; [|done].
    apply IH. by eapply reach_loop.
Qed.

Lemma relay_driven_reachable : reachable sketch_config relay_driven.
Proof.
  apply reachable_loops
    with (inputs := held_up_passes) (s := setup sketch_config power_on);
    [apply reach_setup|].
  vm_compute. reflexivity.
Qed.

Lemma shot_under_way_reachable : reachable sketch_config shot_under_way.
Proof.
  apply reachable_loops
    with (inputs := going_down_passes) (s := setup sketch_config power_on);
    [apply reach_setup|].
  vm_compute. reflexivity.
Qed.

Lemma last_led_due_reachable : reachable sketch_config last_led_due.
Proof.
  apply reachable_loops
    with (inputs := last_led_due_passes) (s := setup sketch_config power_on);
    [apply reach_setup|].
  vm_compute. reflexivity.
Qed.

(** * The claims *)

(** C1 (as amended).  A shot started from [WAIT_FOR_LIFT], with [shotCycle]
    called at every transition time and any number of times in between, ends
    in [WAIT_FOR_LIFT] with the relay and every LED low; the sequencer is in
    no earlier call back in [WAIT_FOR_LIFT]; and the last call comes
    (LED_COUNT - 1) * BLINK_SEQUENCE + AFTER_LAST_LED + RELAIS_TRIGGER_TIME
    + PAUSE_AFTER_SHOT after the first: the first LED costs no interval. *)
Theorem full_cycle_time cfg t0 e s :
  2 <= LED_COUNT cfg → durations_ok cfg →
  state s = WAIT_FOR_LIFT → early_ok cfg t0 e →
  ∃ s', shotCycles cfg (map wrap32 (cycle_ticks cfg t0 e)) s = Some s'
        ∧ state s' = WAIT_FOR_LIFT ∧ relay_off cfg s' ∧ leds_off cfg s'
        ∧ head (cycle_ticks cfg t0 e) = Some t0
        ∧ last (cycle_ticks cfg t0 e) = Some (t0 + cycle_time cfg)
        ∧ cycle_time cfg
          = (LED_COUNT cfg - 1) * BLINK_SEQUENCE cfg + AFTER_LAST_LED cfg
            + RELAIS_TRIGGER_TIME cfg + PAUSE_AFTER_SHOT cfg
        ∧ ∀ p q, cycle_ticks cfg t0 e = p ++ q → p ≠ [] → q ≠ [] →
            ∃ sp, shotCycles cfg (map wrap32 p) s = Some sp
                  ∧ state sp ≠ WAIT_FOR_LIFT.
Proof.
  intros Hcount Hdur Hst Hok.
  destruct (shot_run cfg Hcount Hdur t0 e s Hst Hok)
    as (s1 & [Hrun Hbusy] & Hend & Hrel & Hled).
  assert (Hlast : relay_off_time cfg t0 + PAUSE_AFTER_SHOT cfg
                  = t0 + cycle_time cfg)
    by (unfold relay_off_time, relay_on_time, last_led_time, cycle_time; ring).
  exists (set_state WAIT_FOR_LIFT s1). repeat split.
  - unfold cycle_ticks. rewrite map_app, shotCycles_app, Hrun. simpl.
    by rewrite Hlast, Hend.
  - exact Hrel.
  - exact Hled.
  - unfold cycle_ticks. by rewrite last_snoc, Hlast.
  - intros p q Hpq Hp Hq. unfold cycle_ticks in Hpq.
    apply app_eq_inv in Hpq as [(k & Hk & _)|(k & -> & Hk)].
    + apply (Hbusy (map wrap32 p) (map wrap32 k)); [|by destruct p].
      by rewrite Hk, map_app.
    + destruct k as [|t k].
      * rewrite app_nil_r.
        apply (Hbusy (map wrap32 (busy_ticks cfg t0 e)) []);
          [by rewrite app_nil_r | done].
      * destruct k, q; done.
Qed.

Lemma full_cycle_time_witness :
  ∃ s', shotCycles sketch_config
          (map wrap32 (cycle_ticks sketch_config 0 sample_early))
          (setup sketch_config power_on) = Some s'
        ∧ state s' = WAIT_FOR_LIFT
        ∧ relay_off sketch_config s' ∧ leds_off sketch_config s'
        ∧ head (cycle_ticks sketch_config 0 sample_early) = Some 0
        ∧ last (cycle_ticks sketch_config 0 sample_early)
          = Some (0 + cycle_time sketch_config)
        ∧ cycle_time sketch_config
          = (LED_COUNT sketch_config - 1) * BLINK_SEQUENCE sketch_config
            + AFTER_LAST_LED sketch_config
            + RELAIS_TRIGGER_TIME sketch_config + PAUSE_AFTER_SHOT sketch_config
        ∧ ∀ p q, cycle_ticks sketch_config 0 sample_early = p ++ q →
            p ≠ [] → q ≠ [] →
            ∃ sp, shotCycles sketch_config (map wrap32 p)
                    (setup sketch_config power_on) = Some sp
                  ∧ state sp ≠ WAIT_FOR_LIFT.
Proof.
  apply full_cycle_time.
  - vm_compute. discriminate.
  - repeat split; vm_compute; congruence.
  - reflexivity.
  - unfold early_ok. simpl. unfold early_in.
    repeat split; repeat constructor; vm_compute; congruence.
Defined.

(** C1, as the specification states it, fails on the sketch's own timings:
    called at 0, 1500, 3000, 3500, 3520 and 8520 ms the sequencer changes
    state in every call and is back in [WAIT_FOR_LIFT] at 8520 ms, while one
    interval per LED would give 10020 ms. *)
Lemma full_cycle_claimed_time_fails :
  let run ticks :=
    state <$> shotCycles sketch_config ticks (setup sketch_config power_on) in
  run [0] = Some BLINK_LEDS
  ∧ run [0; 1500] = Some BLINK_LEDS
  ∧ run [0; 1500; 3000] = Some TRIGGER_SHOT
  ∧ run [0; 1500; 3000; 3500] = Some SHOT_DONE
  ∧ run [0; 1500; 3000; 3500; 3520] = Some PAUSE
  ∧ run [0; 1500; 3000; 3500; 3520; 8520] = Some WAIT_FOR_LIFT
  ∧ claimed_cycle_time sketch_config = 10020
  ∧ 8520 - 0 ≠ claimed_cycle_time sketch_config.
Proof. repeat split; vm_compute; congruence. Qed.

(** C2.  Whatever samples the filter has seen, the value [isTilted] returns
    is the debounced one, and in a call it goes from false to true only
    with the new level at or above THRESHOLD_HIGH, from true to false only
    with the new level at or below THRESHOLD_LOW, and stays as it is when
    the new level lies strictly between the two thresholds. *)
Theorem hysteresis_flips cfg raws raw s0 :
  let s := tilt_samples cfg raws s0 in
  let out := isTilted cfg raw s in
  let level := tiltLevel out.2 in
  out.1 = tilted out.2
  ∧ (tilted s = false → out.1 = true →
     f32_ge level (THRESHOLD_HIGH cfg) = true)
  ∧ (tilted s = true → out.1 = false →
     f32_le level (THRESHOLD_LOW cfg) = true)
  ∧ (f32_lt (THRESHOLD_LOW cfg) level = true →
     f32_lt level (THRESHOLD_HIGH cfg) = true →
     out.1 = tilted s).
Proof.
  intros s out level. subst out level. unfold isTilted. simpl.
  set (lvl := f32_add _ _).
  split; [done|].
  destruct (tilted s); simpl.
  - split; [done|]. split.
    + intros _. by destruct (f32_le lvl (THRESHOLD_LOW cfg)).
    + intros Hlo _. by rewrite (f32_lt_not_le _ _ Hlo).
  - rewrite orb_false_r. split; [|split; [done|]].
    + intros _. by destruct (f32_ge lvl (THRESHOLD_HIGH cfg)).
    + intros _ Hhi. by rewrite (f32_lt_not_ge _ _ Hhi).
Qed.

Lemma hysteresis_flips_witness :
  f32_ge (tiltLevel (isTilted sketch_config true
                       (tilt_samples sketch_config [true] power_on)).2)
         (THRESHOLD_HIGH sketch_config) = true
  ∧ (isTilted sketch_config false
       (tilt_samples sketch_config [true; true] power_on)).1
    = tilted (tilt_samples sketch_config [true; true] power_on).
Proof.
  split.
  - destruct (hysteresis_flips sketch_config [true] true power_on)
      as (_ & Hup & _).
    apply Hup; reflexivity.
  - destruct (hysteresis_flips sketch_config [true; true] false power_on)
      as (_ & _ & _ & Hband).
    apply Hband; reflexivity.
Defined.

(** C3.  Scenarios B and C on the sketch's constants (three LEDs, 1500, 500,
    20 and 5000 ms), [shotCycle] called at 0, 1500, 3000, 3500, 3520 and
    8520 ms from the state [setup] leaves: LED0 is lit at 0 (index 1), LED1
    at 1500 (index 2), LED2 at 3000 (index 3, TRIGGER_SHOT); the relay is
    driven at 3500 (SHOT_DONE); relay and LEDs are low at 3520 (PAUSE); the
    state is WAIT_FOR_LIFT at 8520. *)
Theorem scenario_countdown_and_shot :
  let run ticks :=
    observe sketch_config
      <$> shotCycles sketch_config ticks (setup sketch_config power_on) in
  run [] = Some (WAIT_FOR_LIFT, 0, [LOW; LOW; LOW], LOW)
  ∧ run [0] = Some (BLINK_LEDS, 1, [HIGH; LOW; LOW], LOW)
  ∧ run [0; 1500] = Some (BLINK_LEDS, 2, [HIGH; HIGH; LOW], LOW)
  ∧ run [0; 1500; 3000] = Some (TRIGGER_SHOT, 3, [HIGH; HIGH; HIGH], LOW)
  ∧ run [0; 1500; 3000; 3500] = Some (SHOT_DONE, 3, [HIGH; HIGH; HIGH], HIGH)
  ∧ run [0; 1500; 3000; 3500; 3520] = Some (PAUSE, 3, [LOW; LOW; LOW], LOW)
  ∧ run [0; 1500; 3000; 3500; 3520; 8520]
    = Some (WAIT_FOR_LIFT, 3, [LOW; LOW; LOW], LOW).
Proof. repeat split; vm_compute; reflexivity. Qed.

(** C4.  Whatever the state and the levels of the pins, [reset target]
    leaves the relay low, every LED low and the state equal to [target];
    with the default target this is what [loop] calls when the stick is
    lowered. *)
Theorem reset_switches_everything_off cfg target s :
  relay_off cfg (reset cfg target s)
  ∧ leds_off cfg (reset cfg target s)
  ∧ state (reset cfg target s) = target
  ∧ relay_off cfg (reset cfg WAIT_FOR_LIFT s)
  ∧ leds_off cfg (reset cfg WAIT_FOR_LIFT s)
  ∧ state (reset cfg WAIT_FOR_LIFT s) = WAIT_FOR_LIFT.
Proof.
  pose proof (reset_frame cfg target s) as (Ht & _).
  pose proof (reset_frame cfg WAIT_FOR_LIFT s) as (Hw & _).
  repeat split;
    first [apply reset_relay_off | apply reset_leds_off | assumption].
Qed.

(** C5 (as amended).  [setup] checks nothing: for every configuration,
    whether it meets the constraints or not, it reads the three pin
    constants only, sets the pin modes and the state, and the passes of
    [loop] start from the state it leaves. *)
Theorem setup_accepts_every_config cfg :
  setup cfg power_on = setup (pins_only cfg) power_on
  ∧ state (setup cfg power_on) = WAIT_FOR_LIFT
  ∧ tilted (setup cfg power_on) = false
  ∧ tiltLevel (setup cfg power_on) = f32_zero
  ∧ ledIndex (setup cfg power_on) = 0
  ∧ timer (setup cfg power_on) = 0
  ∧ pins (setup cfg power_on) = ∅
  ∧ reachable cfg (setup cfg power_on).
Proof.
  split; [reflexivity|].
  destruct (setup_frame cfg power_on) as (-> & -> & -> & -> & -> & ->).
  repeat split. apply reach_setup.
Qed.

(** C5, as the specification states it, fails.  With the thresholds swapped
    [setup] returns as usual and the filter answers true, false, true,
    false to the samples 1, 0, 1, 0; with no LED [setup] returns as usual,
    a pass of [loop] with the stick down runs, and the pass that finds the
    stick up reads [LED_PINS] outside its bounds. *)
Lemma setup_accepts_broken_configs :
  spec_config_ok sketch_config = true
  ∧ spec_config_ok swapped_thresholds_config = false
  ∧ observe swapped_thresholds_config
      (setup swapped_thresholds_config power_on)
    = (WAIT_FOR_LIFT, 0, [LOW; LOW; LOW], LOW)
  ∧ reachable swapped_thresholds_config
      (setup swapped_thresholds_config power_on)
  ∧ tilt_outputs swapped_thresholds_config [true; false; true; false]
      (setup swapped_thresholds_config power_on)
    = [true; false; true; false]
  ∧ spec_config_ok no_led_config = false
  ∧ observe no_led_config (setup no_led_config power_on)
    = (WAIT_FOR_LIFT, 0, [], LOW)
  ∧ reachable no_led_config (setup no_led_config power_on)
  ∧ loops no_led_config [(false, 0)] (setup no_led_config power_on)
    = Some (setup no_led_config power_on)
  ∧ loops no_led_config [(true, 0); (true, 10)] (setup no_led_config power_on)
    = None.
Proof. repeat split; try (vm_compute; reflexivity); apply reach_setup. Qed.

(** C6.  In BLINK_LEDS, TRIGGER_SHOT, SHOT_DONE and PAUSE, a call of
    [shotCycle] at a time [now] with [now - timer] (as the sketch computes
    it, on unsigned long) below the state's duration changes nothing: state,
    ledIndex, timer and all pin levels stay as they are. *)
Theorem shotCycle_waits cfg now s :
  state s ≠ WAIT_FOR_LIFT →
  elapsed now (timer s) < duration cfg (state s) →
  shotCycle cfg now s = Some s.
Proof. apply shotCycle_early. Qed.

Lemma shotCycle_waits_witness :
  shotCycle sketch_config 4499
    (mkSketch BLINK_LEDS true f32_one 2 3000 ∅ (<[4 := HIGH]> ∅))
  = Some (mkSketch BLINK_LEDS true f32_one 2 3000 ∅ (<[4 := HIGH]> ∅)).
Proof.
  apply shotCycle_waits.
  - simpl. discriminate.
  - vm_compute. reflexivity.
Defined.

(** C7.  With a smoothing factor LOW_PASS above 0 and not above 1, and the
    level at 0 to start with, the level stays between 0 and 1 after every
    sample, whatever the samples are: each sample is 0.0 or 1.0 and the
    update is level += (raw - level) * LOW_PASS in binary32 arithmetic,
    rounding to nearest after each operation. *)
Theorem filter_level_in_unit_interval cfg raws s0 :
  f32_valid (LOW_PASS cfg) = true →
  f32_lt f32_zero (LOW_PASS cfg) = true →
  f32_le (LOW_PASS cfg) f32_one = true →
  tiltLevel s0 = f32_zero →
  f32_le f32_zero (tiltLevel (tilt_samples cfg raws s0)) = true
  ∧ f32_le (tiltLevel (tilt_samples cfg raws s0)) f32_one = true.
Proof.
  intros Hvalid Hpos Hle Hstart. apply unit_level_le.
  apply tilt_samples_unit; [by apply unit_factor_intro|].
  rewrite Hstart. apply unit_level_zero.
Qed.

Lemma filter_level_in_unit_interval_witness :
  f32_le f32_zero
    (tiltLevel (tilt_samples sketch_config [true; true; false; true] power_on))
  = true
  ∧ f32_le
      (tiltLevel (tilt_samples sketch_config [true; true; false; true] power_on))
      f32_one
    = true.
Proof. apply filter_level_in_unit_interval; reflexivity. Defined.

(** C8.  [reset()] called twice in a row gives what one call gives: the
    second call changes nothing, the state is WAIT_FOR_LIFT and the relay
    and every LED are low. *)
Theorem reset_idempotent cfg s :
  reset cfg WAIT_FOR_LIFT (reset cfg WAIT_FOR_LIFT s) = reset cfg WAIT_FOR_LIFT s
  ∧ state (reset cfg WAIT_FOR_LIFT (reset cfg WAIT_FOR_LIFT s)) = WAIT_FOR_LIFT
  ∧ relay_off cfg (reset cfg WAIT_FOR_LIFT (reset cfg WAIT_FOR_LIFT s))
  ∧ leds_off cfg (reset cfg WAIT_FOR_LIFT (reset cfg WAIT_FOR_LIFT s)).
Proof.
  rewrite reset_reset.
  pose proof (reset_frame cfg WAIT_FOR_LIFT s) as (Hw & _).
  repeat split;
    first [apply reset_relay_off | apply reset_leds_off | assumption].
Qed.

(** C9.  In every state the sketch reaches by [setup] and passes of [loop],
    the relay is driven only in SHOT_DONE: it is low in WAIT_FOR_LIFT,
    BLINK_LEDS, TRIGGER_SHOT and PAUSE. *)
Theorem relay_only_in_shot_done s :
  reachable sketch_config s →
  (output s (RELAIS_PIN sketch_config) = HIGH → state s = SHOT_DONE)
  ∧ (state s ∈ [WAIT_FOR_LIFT; BLINK_LEDS; TRIGGER_SHOT; PAUSE] →
     output s (RELAIS_PIN sketch_config) = LOW).
Proof.
  intros Hs.
  destruct (reachable_inv sketch_config sketch_config_two_leds
              sketch_config_relay_apart s Hs) as [_ Hrel].
  split; [apply Hrel|].
  intros Hin. destruct (output s (RELAIS_PIN sketch_config)); [|done].
  assert (E : state s = SHOT_DONE) by (by apply Hrel). rewrite E in Hin.
  rewrite !elem_of_cons in Hin. rewrite elem_of_nil in Hin.
  intuition discriminate.
Qed.

Lemma relay_only_in_shot_done_witness :
  (output relay_driven (RELAIS_PIN sketch_config) = HIGH →
   state relay_driven = SHOT_DONE)
  ∧ (state relay_driven ∈ [WAIT_FOR_LIFT; BLINK_LEDS; TRIGGER_SHOT; PAUSE] →
     output relay_driven (RELAIS_PIN sketch_config) = LOW).
Proof. apply relay_only_in_shot_done. apply relay_driven_reachable. Defined.

(** C10.  In every state the sketch reaches by [setup] and passes of [loop],
    a call of [shotCycle] reads [LED_PINS] at an index between 0 and
    LED_COUNT - 1 only: in BLINK_LEDS the index is below LED_COUNT, and a
    call leaves BLINK_LEDS for TRIGGER_SHOT exactly when the index gets to
    LED_COUNT.  So neither [shotCycle] nor the pass of [loop] ever reads
    outside the array. *)
Theorem led_index_in_bounds raw now s :
  reachable sketch_config s →
  (∀ i, led_read sketch_config now (isTilted sketch_config raw s).2 = Some i →
        0 <= i <= LED_COUNT sketch_config - 1)
  ∧ (∀ i, led_read sketch_config now s = Some i →
          0 <= i <= LED_COUNT sketch_config - 1)
  ∧ (state s = BLINK_LEDS → 1 <= ledIndex s <= LED_COUNT sketch_config - 1)
  ∧ (∀ s', state s = BLINK_LEDS → shotCycle sketch_config now s = Some s' →
           (state s' = TRIGGER_SHOT ↔ ledIndex s' = LED_COUNT sketch_config))
  ∧ is_Some (shotCycle sketch_config now s)
  ∧ is_Some (loop sketch_config raw now s).
Proof.
  intros Hs.
  pose proof (reachable_inv sketch_config sketch_config_two_leds
                sketch_config_relay_apart s Hs) as Hinv.
  pose proof Hinv as [Hidx _].
  assert (Hread : ∀ t i, led_read sketch_config t s = Some i →
                         0 <= i <= LED_COUNT sketch_config - 1).
  { intros t i. unfold led_read. destruct (state s).
    - intros [= <-]. vm_compute. split; discriminate.
    - destruct (_ <=? _); [|done]. intros [= <-]. specialize (Hidx eq_refl). lia.
    - done.
    - done.
    - done. }
  assert (Hcycle : ∀ t, is_Some (shotCycle sketch_config t s)).
  { intros t. destruct (shotCycle sketch_config t s) eqn:E; [by eexists|].
    apply shotCycle_None in E as (i & Hi & Hout).
    apply Hread in Hi. lia. }
  split; [intros i; rewrite led_read_isTilted; apply Hread|].
  split; [apply Hread|].
  split; [intros Hst; specialize (Hidx Hst); lia|].
  split.
  { intros s' Hst. specialize (Hidx Hst). unfold shotCycle. rewrite Hst.
    destruct (_ <=? _).
    - destruct (light_next_led sketch_config (set_timer now s)) as [s1|] eqn:E;
        simpl; [|done].
      apply light_next_led_Some in E as (pin & _ & Es1).
      assert (Hst1 : state s1 = BLINK_LEDS) by (by subst s1).
      destruct (decide (ledIndex s1 = LED_COUNT sketch_config)) as [Heq|Hne];
        intros [= <-]; simpl; [done|].
      rewrite Hst1. split; [done | contradiction].
    - intros [= <-]. rewrite Hst. split; [done | lia]. }
  split; [apply Hcycle|].
  unfold loop.
  assert (Hsame : ∀ t, shotCycle sketch_config t (isTilted sketch_config raw s).2
                       = None → shotCycle sketch_config t s = None).
  { intros t. rewrite !shotCycle_None. by rewrite led_read_isTilted. }
  destruct (isTilted sketch_config raw s) as [t s1]. simpl in Hsame.
  destruct t.
  - destruct (shotCycle sketch_config now s1) eqn:E; [by eexists|].
    apply Hsame in E. destruct (Hcycle now) as [? ?]. congruence.
  - destruct (decide _); by eexists.
Qed.

Lemma led_index_in_bounds_witness :
  (led_read sketch_config 1520 shot_under_way = Some 1
   ∧ led_read sketch_config 1520
       (isTilted sketch_config true shot_under_way).2 = Some 1
   ∧ 0 <= 1 <= LED_COUNT sketch_config - 1
   ∧ 1 <= ledIndex shot_under_way <= LED_COUNT sketch_config - 1
   ∧ is_Some (shotCycle sketch_config 1520 shot_under_way)
   ∧ is_Some (loop sketch_config true 1520 shot_under_way))
  ∧ (led_read sketch_config 3010 last_led_due = Some 2
     ∧ 0 <= 2 <= LED_COUNT sketch_config - 1
     ∧ 1 <= ledIndex last_led_due <= LED_COUNT sketch_config - 1
     ∧ (∀ s', shotCycle sketch_config 3010 last_led_due = Some s' →
              (state s' = TRIGGER_SHOT
               ↔ ledIndex s' = LED_COUNT sketch_config))
     ∧ is_Some (shotCycle sketch_config 3010 last_led_due)
     ∧ is_Some (loop sketch_config true 3010 last_led_due)).
Proof.
  split.
  - destruct (led_index_in_bounds true 1520 shot_under_way
                shot_under_way_reachable)
      as (Htilt & Hread & Hidx & _ & Hcycle & Hloop).
    split; [reflexivity|]. split; [reflexivity|].
    split; [apply Hread; reflexivity|].
    split; [apply Hidx; reflexivity|].
    split; [exact Hcycle | exact Hloop].
  - destruct (led_index_in_bounds true 3010 last_led_due
                last_led_due_reachable)
      as (_ & Hread & Hidx & Hexit & Hcycle & Hloop).
    split; [reflexivity|].
    split; [apply Hread; reflexivity|].
    split; [apply Hidx; reflexivity|].
    split; [intros s'; apply Hexit; reflexivity|].
    split; [exact Hcycle | exact Hloop].
Defined.

(** * Further properties of the sketch *)

(** ** The actuators *)

Lemma output_digitalWrite p v s q :
  output (digitalWrite p v s) q = if decide (p = q) then v else output s q.
Proof.
  unfold output. simpl. rewrite lookup_insert. by destruct (decide (p = q)).
Qed.

Lemma array_at_lookup a i pin :
  array_at a i = Some pin → 0 <= i ∧ a !! Z.to_nat i = Some pin.
Proof. intros [[Hi _] H]%array_at_Some. done. Qed.

Section Display.
Variable cfg : Config.
Hypothesis Hnodup : NoDup (LED_PINS cfg).
Hypothesis Hrelay : RELAIS_PIN cfg ∉ LED_PINS cfg.

(** Lighting the LED at index [i] when those below it are lit. *)
Lemma light_display i pin s s' n :
  array_at (LED_PINS cfg) i = Some pin →
  (∀ k q, LED_PINS cfg !! k = Some q →
          output s q = bool_decide (Z.of_nat k < i)) →
  (∀ q, output s' q = if decide (pin = q) then HIGH else output s q) →
  n = i + 1 →
  ∀ k q, LED_PINS cfg !! k = Some q → output s' q = bool_decide (Z.of_nat k < n).
Proof.
  intros [Hi Hpin]%array_at_lookup Hold Hnew -> k q Hq.
  rewrite Hnew. destruct (decide (pin = q)) as [<-|Hne].
  - assert (k = Z.to_nat i) by (by eapply NoDup_lookup). subst k.
    symmetry. apply bool_decide_eq_true. lia.
  - rewrite (Hold k q Hq). apply bool_decide_ext.
    assert (k ≠ Z.to_nat i) by (intros ->; congruence). lia.
Qed.

Lemma setup_display : display_inv cfg (setup cfg power_on).
Proof.
  intros k pin _. destruct (setup_frame cfg power_on) as (Hst & _ & _ & _ & _ & Hp).
  unfold output, lit_count. rewrite Hst, Hp.
  change (pins power_on) with (∅ : gmap Z bool). rewrite lookup_empty. simpl.
  symmetry. apply bool_decide_eq_false. lia.
Qed.

Lemma reset_display target s :
  target = WAIT_FOR_LIFT ∨ target = PAUSE →
  display_inv cfg (reset cfg target s).
Proof.
  intros Ht k pin Hpin. unfold lit_count.
  destruct (reset_frame cfg target s) as (-> & _).
  rewrite (reset_leds_off cfg target s pin)
    by (apply list_elem_of_lookup; eauto).
  destruct Ht as [-> | ->]; symmetry; apply bool_decide_eq_false; lia.
Qed.

Lemma shotCycle_display now s s' :
  sequencer_inv cfg s → display_inv cfg s →
  shotCycle cfg now s = Some s' → display_inv cfg s'.
Proof.
  intros [Hidx _] Hdisp. unfold shotCycle, display_inv, lit_count in *.
  destruct (state s) eqn:Est.
  - (* WAIT_FOR_LIFT: the first LED *)
    destruct (light_next_led cfg (set_timer now (set_ledIndex 0 s)))
      as [s1|] eqn:E; simpl; [|done].
    intros [= <-]. apply light_next_led_Some in E as (pin & Hpin & ->).
    simpl in *. eapply light_display; [exact Hpin | exact Hdisp | | done].
    intros q. exact (output_digitalWrite pin HIGH s q).
  - (* BLINK_LEDS *)
    destruct (_ <=? _); [|by intros [= <-]; rewrite Est].
    destruct (light_next_led cfg (set_timer now s)) as [s1|] eqn:E;
      simpl; [|done].
    apply light_next_led_Some in E as (pin & Hpin & ->). simpl in *.
    destruct (decide _) as [Heq|Hne]; intros [= <-]; simpl.
    + eapply light_display; [exact Hpin | exact Hdisp | | lia].
      intros q. exact (output_digitalWrite pin HIGH s q).
    + rewrite Est. eapply light_display; [exact Hpin | exact Hdisp | | done].
      intros q. exact (output_digitalWrite pin HIGH s q).
  - (* TRIGGER_SHOT: only the relay is written *)
    destruct (_ <=? _); intros [= <-]; [|by rewrite Est].
    simpl. intros k q Hq. rewrite <- (Hdisp k q Hq).
    unfold output. simpl. rewrite lookup_insert_ne; [done|].
    intros E. apply Hrelay. rewrite E. apply list_elem_of_lookup. eauto.
  - (* SHOT_DONE *)
    destruct (_ <=? _); intros [= <-]; [|by rewrite Est].
    apply reset_display. by right.
  - (* PAUSE *)
    destruct (_ <=? _); intros [= <-]; [|by rewrite Est].
    simpl. exact Hdisp.
Qed.

Lemma loop_display raw now s s' :
  sequencer_inv cfg s → display_inv cfg s →
  loop cfg raw now s = Some s' → display_inv cfg s'.
Proof.
  intros Hinv Hdisp. unfold loop.
  assert (Hdisp' : display_inv cfg (isTilted cfg raw s).2) by exact Hdisp.
  assert (Hinv' : sequencer_inv cfg (isTilted cfg raw s).2) by exact Hinv.
  destruct (isTilted cfg raw s) as [t s1]. simpl in *.
  destruct t; [by apply shotCycle_display|].
  destruct (decide _); intros [= <-]; [|done].
  apply reset_display. by left.
Qed.
End Display.


Lemma reachable_display cfg s :
  NoDup (LED_PINS cfg) → RELAIS_PIN cfg ∉ LED_PINS cfg → 2 <= LED_COUNT cfg →
  reachable cfg s → display_inv cfg s.
Proof.
  intros Hnodup Hrelay Hcount.
  induction 1 as [|raw now s s' Hs IH Hstep]; [apply setup_display|].
  eapply loop_display; try done. by apply reachable_inv.
Qed.

Lemma sketch_config_nodup : NoDup (LED_PINS sketch_config).
Proof.
  simpl. repeat constructor; rewrite ?not_elem_of_cons;
    repeat split; try discriminate; apply not_elem_of_nil.
Qed.

Lemma reachable_outputs cfg s :
  NoDup (LED_PINS cfg) → RELAIS_PIN cfg ∉ LED_PINS cfg → 2 <= LED_COUNT cfg →
  reachable cfg s →
  display_inv cfg s
  ∧ output s (RELAIS_PIN cfg) = bool_decide (state s = SHOT_DONE)
  ∧ 0 <= lit_count cfg s <= LED_COUNT cfg.
Proof.
  intros Hnodup Hrelay Hcount Hs.
  pose proof (reachable_inv cfg Hcount Hrelay s Hs) as [Hidx Hrel].
  split; [by apply reachable_display|]. split.
  - destruct (output s (RELAIS_PIN cfg)) eqn:E; symmetry.
    + apply bool_decide_eq_true. by apply Hrel.
    + apply bool_decide_eq_false. intros Hst. apply Hrel in Hst.
      unfold HIGH in Hst. congruence.
  - unfold lit_count. destruct (state s); try lia. specialize (Hidx eq_refl). lia.
Qed.

(** X1.  Between passes of [loop] the LEDs show how far the shot is: with
    distinct LED pins, none of them the relay's, and two LEDs at least, the
    LEDs before [ledIndex] are lit and the others dark in BLINK_LEDS, all
    are lit in TRIGGER_SHOT and SHOT_DONE, none in WAIT_FOR_LIFT and PAUSE;
    the relay is driven exactly in SHOT_DONE. *)
Theorem leds_show_progress cfg s :
  NoDup (LED_PINS cfg) → RELAIS_PIN cfg ∉ LED_PINS cfg → 2 <= LED_COUNT cfg →
  reachable cfg s →
  (∀ k pin, LED_PINS cfg !! k = Some pin →
            output s pin = bool_decide (Z.of_nat k < lit_count cfg s))
  ∧ output s (RELAIS_PIN cfg) = bool_decide (state s = SHOT_DONE)
  ∧ 0 <= lit_count cfg s <= LED_COUNT cfg.
Proof. exact (reachable_outputs cfg s). Qed.

Lemma leds_show_progress_witness :
  (∀ k pin, LED_PINS sketch_config !! k = Some pin →
            output relay_driven pin
            = bool_decide (Z.of_nat k < lit_count sketch_config relay_driven))
  ∧ output relay_driven (RELAIS_PIN sketch_config)
    = bool_decide (state relay_driven = SHOT_DONE)
  ∧ 0 <= lit_count sketch_config relay_driven <= LED_COUNT sketch_config.
Proof.
  apply leds_show_progress.
  - apply sketch_config_nodup.
  - apply sketch_config_relay_apart.
  - apply sketch_config_two_leds.
  - apply relay_driven_reachable.
Defined.

(** X2.  A pass of [loop] in which [isTilted] answers false leaves the
    sketch in WAIT_FOR_LIFT with the relay and every LED low, whatever it
    was doing: a shot under way is dropped in that very pass. *)
Theorem lowered_stick_switches_off cfg raw now s :
  NoDup (LED_PINS cfg) → RELAIS_PIN cfg ∉ LED_PINS cfg → 2 <= LED_COUNT cfg →
  reachable cfg s → (isTilted cfg raw s).1 = false →
  ∃ s', loop cfg raw now s = Some s'
        ∧ state s' = WAIT_FOR_LIFT ∧ relay_off cfg s' ∧ leds_off cfg s'.
Proof.
  intros Hnodup Hrelay Hcount Hs Hlow.
  destruct (decide (state s = WAIT_FOR_LIFT)) as [Hst|Hst].
  - exists (isTilted cfg raw s).2. unfold loop.
    destruct (reachable_outputs cfg s Hnodup Hrelay Hcount Hs)
      as (Hleds & Hrel & _).
    destruct (isTilted cfg raw s) as [t s1] eqn:E. simpl in Hlow. subst t.
    assert (Hs1 : s1 = (isTilted cfg raw s).2) by (by rewrite E).
    rewrite decide_False by (subst s1; simpl; tauto).
    split; [done|]. subst s1. split; [exact Hst|]. split.
    + unfold relay_off. change (output _ _) with (output s (RELAIS_PIN cfg)).
      rewrite Hrel. apply bool_decide_eq_false. by rewrite Hst.
    + intros pin [k Hk]%list_elem_of_lookup.
      change (output _ pin) with (output s pin).
      rewrite (Hleds k pin Hk). apply bool_decide_eq_false.
      unfold lit_count. rewrite Hst. lia.
  - exists (reset cfg WAIT_FOR_LIFT (isTilted cfg raw s).2).
    split; [by apply loop_lowered|].
    destruct (reset_frame cfg WAIT_FOR_LIFT (isTilted cfg raw s).2) as (Hw & _).
    split; [exact Hw|]. split; [apply reset_relay_off | apply reset_leds_off].
Qed.

Lemma lowered_stick_switches_off_witness :
  ∃ s', loop sketch_config false 30 shot_under_way = Some s'
        ∧ state s' = WAIT_FOR_LIFT
        ∧ relay_off sketch_config s' ∧ leds_off sketch_config s'.
Proof.
  apply lowered_stick_switches_off.
  - apply sketch_config_nodup.
  - apply sketch_config_relay_apart.
  - apply sketch_config_two_leds.
  - apply shot_under_way_reachable.
  - vm_compute. reflexivity.
Defined.

(** ** Pins and modes *)

Lemma pinMode_all_modes l s p :
  modes (foldl (fun acc pin => pinMode pin OUTPUT acc) s l) !! p =
    if decide (p ∈ l) then Some OUTPUT else modes s !! p.
Proof.
  revert s. induction l as [|q l IH]; intros s; simpl.
  - destruct (decide (p ∈ [])) as [H|H]; [by apply elem_of_nil in H | done].
  - rewrite IH. simpl. rewrite lookup_insert.
    destruct (decide (q = p)) as [->|Hne].
    + rewrite (decide_True (P := p ∈ p :: l)) by (apply elem_of_cons; tauto).
      by destruct (decide (p ∈ l)).
    + destruct (decide (p ∈ l)) as [Hl|Hl].
      * rewrite decide_True; [done | apply elem_of_cons; tauto].
      * rewrite decide_False; [done |].
        rewrite elem_of_cons. intros [?|?]; congruence.
Qed.

Lemma shotCycle_frame cfg now s s' :
  shotCycle cfg now s = Some s' →
  modes s' = modes s ∧ tilted s' = tilted s ∧ tiltLevel s' = tiltLevel s
  ∧ ∀ p, p ≠ RELAIS_PIN cfg → p ∉ LED_PINS cfg → pins s' !! p = pins s !! p.
Proof.
  unfold shotCycle.
  assert (Hlight : ∀ s0 s1, light_next_led cfg s0 = Some s1 →
            modes s1 = modes s0 ∧ tilted s1 = tilted s0
            ∧ tiltLevel s1 = tiltLevel s0
            ∧ ∀ p, p ≠ RELAIS_PIN cfg → p ∉ LED_PINS cfg →
                   pins s1 !! p = pins s0 !! p).
  { intros s0 s1 (pin & Hpin%array_at_elem & ->)%light_next_led_Some. simpl.
    repeat split. intros p _ Hp. apply lookup_insert_ne. by intros ->. }
  assert (Hreset : ∀ t s0,
            modes (reset cfg t s0) = modes s0 ∧ tilted (reset cfg t s0) = tilted s0
            ∧ tiltLevel (reset cfg t s0) = tiltLevel s0
            ∧ ∀ p, p ≠ RELAIS_PIN cfg → p ∉ LED_PINS cfg →
                   pins (reset cfg t s0) !! p = pins s0 !! p).
  { intros t s0. destruct (reset_frame cfg t s0) as (_ & -> & -> & _ & _ & ->).
    repeat split. intros p Hr Hl. rewrite reset_pins.
    rewrite decide_False; [done | tauto]. }
  destruct (state s).
  - destruct (light_next_led cfg _) as [s1|] eqn:E; simpl; [|done].
    intros [= <-]. by apply Hlight in E.
  - destruct (_ <=? _); [|by intros [= <-]].
    destruct (light_next_led cfg _) as [s1|] eqn:E; simpl; [|done].
    apply Hlight in E. by destruct (decide _); intros [= <-].
  - destruct (_ <=? _); intros [= <-]; [|done]. simpl. repeat split.
    intros p Hr _. by apply lookup_insert_ne.
  - destruct (_ <=? _); intros [= <-]; [|done].
    exact (Hreset PAUSE (set_timer now s)).
  - destruct (_ <=? _); by intros [= <-].
Qed.

(** X3.  A pass of [loop] writes to the relay pin and the LED pins only and
    changes no pin mode: the tilt input and every other pin keep the level
    and the mode they had. *)
Theorem loop_touches_only_actuators cfg raw now s s' :
  loop cfg raw now s = Some s' →
  modes s' = modes s
  ∧ ∀ p, p ≠ RELAIS_PIN cfg → p ∉ LED_PINS cfg → pins s' !! p = pins s !! p.
Proof.
  unfold loop. pose proof (isTilted_frame cfg raw s) as (_ & _ & _ & Hm & Hp).
  destruct (isTilted cfg raw s) as [t s1]. simpl in Hm, Hp.
  rewrite <- Hm, <- Hp. clear Hm Hp. destruct t.
  - intros (Hm & _ & _ & Hp)%shotCycle_frame. done.
  - destruct (decide _); intros [= <-]; [|done].
    destruct (reset_frame cfg WAIT_FOR_LIFT s1) as (_ & _ & _ & _ & _ & ->).
    split; [done|]. intros p Hr Hl. rewrite reset_pins.
    rewrite decide_False; [done | tauto].
Qed.

Lemma loop_touches_only_actuators_witness :
  modes relay_released = modes relay_driven
  ∧ ∀ p, p ≠ RELAIS_PIN sketch_config → p ∉ LED_PINS sketch_config →
         pins relay_released !! p = pins relay_driven !! p.
Proof.
  apply (loop_touches_only_actuators sketch_config true 3530).
  vm_compute. reflexivity.
Defined.

(** X4.  [setup] makes every LED pin and the relay pin an output and the
    tilt pin an input with pull-up, touches the mode of no other pin and
    writes no level.  The outputs win: a tilt pin that is also listed as the
    relay or a LED ends up an output. *)
Theorem setup_pin_modes cfg s p :
  modes (setup cfg s) !! p
  = (if decide (p ∈ LED_PINS cfg ∨ p = RELAIS_PIN cfg) then Some OUTPUT
     else if decide (p = TILT_PIN cfg) then Some INPUT_PULLUP
     else modes s !! p)
  ∧ pins (setup cfg s) = pins s.
Proof.
  split; [|destruct (setup_frame cfg s) as (_ & _ & _ & _ & _ & Hp); exact Hp].
  unfold setup, for_each_led. simpl. rewrite pinMode_all_modes. simpl.
  rewrite !lookup_insert.
  destruct (decide (p ∈ LED_PINS cfg)) as [Hl|Hl].
  - rewrite (decide_True (P := p ∈ LED_PINS cfg ∨ p = RELAIS_PIN cfg));
      [done | tauto].
  - destruct (decide (RELAIS_PIN cfg = p)) as [<-|Hr].
    + rewrite (decide_True (P := _ ∨ _)); [done | tauto].
    + rewrite (decide_False (P := p ∈ LED_PINS cfg ∨ p = RELAIS_PIN cfg))
        by (intros [?|?]; congruence).
      destruct (decide (TILT_PIN cfg = p)) as [<-|Ht].
      * by rewrite decide_True.
      * by rewrite decide_False by congruence.
Qed.

(** ** The clock *)

Lemma wrap32_shift a k : wrap32 (wrap32 a + k) = wrap32 (a + k).
Proof. unfold wrap32. by rewrite Zplus_mod_idemp_l. Qed.

Lemma elapsed_shift now timer k :
  elapsed (wrap32 (now + k)) (wrap32 (timer + k)) = elapsed now timer.
Proof. rewrite wrap32_elapsed. unfold elapsed. f_equal. lia. Qed.

Lemma reset_set_timer cfg t x s :
  reset cfg t (set_timer x s) = set_timer x (reset cfg t s).
Proof.
  destruct (reset_frame cfg t (set_timer x s)) as (E1 & E2 & E3 & E4 & E5 & E6).
  destruct (reset_frame cfg t s) as (F1 & F2 & F3 & F4 & F5 & F6).
  cbn [set_timer state tilted tiltLevel ledIndex timer modes] in *.
  apply Sketch_eq;
    cbn [set_timer state tilted tiltLevel ledIndex timer modes pins];
    try congruence.
  apply map_eq. intros p. by rewrite !reset_pins.
Qed.

Lemma shotCycle_shift cfg k now s :
  shotCycle cfg (wrap32 (now + k)) (shift_clock k s)
  = shift_clock k <$> shotCycle cfg now s.
Proof.
  unfold shotCycle, shift_clock.
  change (state (set_timer _ s)) with (state s).
  change (timer (set_timer (wrap32 (timer s + k)) s))
    with (wrap32 (timer s + k)).
  rewrite elapsed_shift.
  destruct (state s).
  - unfold light_next_led. simpl.
    by destruct (array_at (LED_PINS cfg) 0).
  - destruct (_ <=? _); [|done].
    unfold light_next_led. simpl.
    destruct (array_at (LED_PINS cfg) (ledIndex s)); simpl; [|done].
    by destruct (decide _).
  - by destruct (_ <=? _).
  - destruct (_ <=? _); [|done].
    cbn [fmap option_fmap option_map]. f_equal.
    by rewrite !reset_set_timer.
  - by destruct (_ <=? _).
Qed.

(** X5.  The sequencer sees time only through differences modulo 2^32: with
    every clock reading and the stored start time moved by the same [k],
    across a wrap of the clock or not, a run of [shotCycle] goes through the
    same states, indices and pin levels. *)
Theorem shot_independent_of_clock_origin cfg k ticks s :
  shotCycles cfg (map (fun t => wrap32 (t + k)) ticks) (shift_clock k s)
  = shift_clock k <$> shotCycles cfg ticks s
  ∧ observe cfg
      <$> shotCycles cfg (map (fun t => wrap32 (t + k)) ticks) (shift_clock k s)
    = observe cfg <$> shotCycles cfg ticks s.
Proof.
  assert (Hrun : ∀ s0,
            shotCycles cfg (map (fun t => wrap32 (t + k)) ticks) (shift_clock k s0)
            = shift_clock k <$> shotCycles cfg ticks s0).
  { induction ticks as [|t rest IH]; intros s0; simpl; [done|].
    rewrite shotCycle_shift.
    destruct (shotCycle cfg t s0) as [s1|]; simpl; [apply IH | done]. }
  split; [apply Hrun|]. rewrite Hrun.
  by destruct (shotCycles cfg ticks s).
Qed.

(** ** Shots that start over *)

Section SameShot.
Variable cfg : Config.

Lemma same_shot_light a b a' :
  ledIndex a = ledIndex b →
  (∀ p, p = RELAIS_PIN cfg ∨ p ∈ LED_PINS cfg → output a p = output b p) →
  light_next_led cfg a = Some a' →
  ∃ b', light_next_led cfg b = Some b'
        ∧ ledIndex a' = ledIndex b'
        ∧ (state a' = state a ∧ state b' = state b)
        ∧ (timer a' = timer a ∧ timer b' = timer b)
        ∧ ∀ p, p = RELAIS_PIN cfg ∨ p ∈ LED_PINS cfg →
               output a' p = output b' p.
Proof.
  intros Hidx Hout (pin & Hpin & ->)%light_next_led_Some.
  exists (digitalWrite pin HIGH (set_ledIndex (ledIndex b + 1) b)). split.
  - apply light_next_led_Some. exists pin. by rewrite <- Hidx.
  - simpl. split; [lia|]. split; [done|]. split; [done|].
    intros p Hp.
    change (output _ p) with (output (digitalWrite pin HIGH a) p) at 1.
    change (output (digitalWrite pin HIGH (set_ledIndex _ b)) p)
      with (output (digitalWrite pin HIGH b) p).
    rewrite !output_digitalWrite. destruct (decide _); [done | by apply Hout].
Qed.

Lemma same_shot_light_None a b :
  ledIndex a = ledIndex b →
  light_next_led cfg a = None → light_next_led cfg b = None.
Proof. intros Hidx. rewrite !light_next_led_None. by rewrite Hidx. Qed.

Lemma same_shot_reset t a b :
  timer a = timer b → ledIndex a = ledIndex b →
  same_shot cfg (reset cfg t a) (reset cfg t b).
Proof.
  intros Htm Hidx.
  destruct (reset_frame cfg t a) as (A1 & _ & _ & A4 & A5 & _).
  destruct (reset_frame cfg t b) as (B1 & _ & _ & B4 & B5 & _).
  split; [congruence|]. split; [intros _; split; congruence|].
  intros p Hp. unfold output. rewrite !reset_pins.
  rewrite !decide_True by tauto. done.
Qed.

Lemma same_shot_step now a b :
  same_shot cfg a b →
  match shotCycle cfg now a, shotCycle cfg now b with
  | Some a', Some b' => same_shot cfg a' b'
  | None, None => True
  | _, _ => False
  end.
Proof.
  intros Hab. pose proof Hab as (Hst & Hlive & Hout).
  unfold shotCycle. rewrite <- Hst.
  destruct (state a) eqn:Ea.
  - (* WAIT_FOR_LIFT: index and time are set afresh *)
    destruct (light_next_led cfg (set_timer now (set_ledIndex 0 a)))
      as [a'|] eqn:E.
    + destruct (same_shot_light (set_timer now (set_ledIndex 0 a))
                  (set_timer now (set_ledIndex 0 b)) a' eq_refl Hout E) as (b' & -> & Hi & _ & [Ht Ht'] & Ho).
      simpl in *. split; [done|]. split; [|exact Ho].
      intros _. simpl. split; congruence.
    + by rewrite (same_shot_light_None (set_timer now (set_ledIndex 0 a))
                    (set_timer now (set_ledIndex 0 b)) eq_refl E).
  - destruct (Hlive ltac:(done)) as [Hidx Htm]. rewrite <- Htm.
    destruct (_ <=? _); simpl; [|exact Hab].
    destruct (light_next_led cfg (set_timer now a)) as [a'|] eqn:E.
    + destruct (same_shot_light (set_timer now a) (set_timer now b) a'
                  Hidx Hout E)
        as (b' & -> & Hi & [Hsa Hsb] & [Ht Ht'] & Ho).
      simpl in *. rewrite <- Hi.
      destruct (decide _); (split; [simpl; congruence|]);
        (split; [intros _; simpl; split; congruence | exact Ho]).
    + by rewrite (same_shot_light_None (set_timer now a) (set_timer now b)
                    Hidx E).
  - destruct (Hlive ltac:(done)) as [Hidx Htm]. rewrite <- Htm.
    destruct (_ <=? _); simpl; [|exact Hab].
    split; [done|]. split; [done|]. intros p Hp.
    change (output _ p)
      with (output (digitalWrite (RELAIS_PIN cfg) HIGH a) p) at 1.
    change (output (set_state _ _) p)
      with (output (digitalWrite (RELAIS_PIN cfg) HIGH b) p).
    rewrite !output_digitalWrite. destruct (decide _); [done | by apply Hout].
  - destruct (Hlive ltac:(done)) as [Hidx Htm]. rewrite <- Htm.
    destruct (_ <=? _); simpl; [|exact Hab].
    by apply same_shot_reset.
  - destruct (Hlive ltac:(done)) as [Hidx Htm]. rewrite <- Htm.
    destruct (_ <=? _); simpl; [|exact Hab].
    split; [done|]. split; [done | exact Hout].
Qed.

Lemma same_shot_run ticks : ∀ a b,
  same_shot cfg a b →
  match shotCycles cfg ticks a, shotCycles cfg ticks b with
  | Some a', Some b' => same_shot cfg a' b'
  | None, None => True
  | _, _ => False
  end.
Proof.
  induction ticks as [|t rest IH]; intros a b Hab; simpl; [done|].
  pose proof (same_shot_step t a b Hab) as Hstep.
  destruct (shotCycle cfg t a) as [a'|], (shotCycle cfg t b) as [b'|];
    simpl; try done. by apply IH.
Qed.

Lemma same_shot_actuators a b :
  same_shot cfg a b → actuators cfg a = actuators cfg b.
Proof.
  intros (Hst & _ & Hout). unfold actuators. rewrite Hst.
  rewrite (Hout (RELAIS_PIN cfg)) by tauto. f_equal. f_equal.
  apply map_ext_in. intros p Hp%list_elem_of_In. apply Hout. tauto.
Qed.
End SameShot.

(** X6.  A [reset()] puts the sequencer where power-on and [setup] put it:
    whatever went before, and whatever index and start time the last shot
    left behind, the same clock readings take [shotCycle] through the same
    states with the same levels on the LEDs and the relay, and it reads
    outside [LED_PINS] in the one run exactly when it does in the other. *)
Theorem reset_starts_over cfg ticks s :
  actuators cfg <$> shotCycles cfg ticks (reset cfg WAIT_FOR_LIFT s)
  = actuators cfg <$> shotCycles cfg ticks (setup cfg power_on).
Proof.
  assert (Hsame : same_shot cfg (reset cfg WAIT_FOR_LIFT s)
                                (setup cfg power_on)).
  { destruct (reset_frame cfg WAIT_FOR_LIFT s) as (A1 & _).
    destruct (setup_frame cfg power_on) as (B1 & _ & _ & _ & _ & B6).
    split; [congruence|]. split; [by rewrite A1|].
    intros p Hp. unfold output. rewrite reset_pins, B6.
    by rewrite decide_True. }
  pose proof (same_shot_run cfg ticks _ _ Hsame) as Hrun.
  destruct (shotCycles cfg ticks (reset cfg WAIT_FOR_LIFT s)) as [a|],
           (shotCycles cfg ticks (setup cfg power_on)) as [b|];
    simpl; try done.
  f_equal. by apply same_shot_actuators.
Qed.

(** ** The direction of a filter update *)

(** A float that is not above [X] is not above [X] rounded down to its
    grid either. *)
Lemma grid_floor_ge mx ex my ey :
  f32_bounded my ey = true -> -298 <= ex ->
  Z.pos my * 2 ^ (ey + f32_scale) <= Z.pos mx * 2 ^ (ex + f32_scale) ->
  let g := 2 ^ (f32_fexp (Z.pos (digits2_pos mx) + ex) + f32_scale) in
  Z.pos my * 2 ^ (ey + f32_scale)
  <= Z.pos mx * 2 ^ (ex + f32_scale) / g * g.
Proof.
  intros Hb Hex Hle g.
  pose proof (f32_bounded_elim _ _ Hb) as (Hc & Hey & Hd).
  pose proof (digits2_bounds mx) as [Xlo Xhi].
  pose proof (digits2_bounds my) as [Ylo Yhi].
  set (dx := Z.pos (digits2_pos mx)) in *.
  set (dy := Z.pos (digits2_pos my)) in *.
  assert (0 < dx) by (subst dx; lia). assert (0 < dy) by (subst dy; lia).
  set (X := Z.pos mx * 2 ^ (ex + f32_scale)) in *.
  set (Y := Z.pos my * 2 ^ (ey + f32_scale)) in *.
  assert (Hge : -149 <= f32_fexp (dx + ex)) by (rewrite f32_fexp_eq; lia).
  assert (Hg : 0 < g)
    by (subst g; apply pow2_pos; unfold f32_scale; lia).
  assert (Px : 0 < 2 ^ (ex + f32_scale))
    by (apply pow2_pos; unfold f32_scale; lia).
  assert (Py : 0 < 2 ^ (ey + f32_scale))
    by (apply pow2_pos; unfold f32_scale; lia).
  assert (Hup : Y < 2 ^ (dx + ex + f32_scale)).
  { assert (X < 2 ^ dx * 2 ^ (ex + f32_scale))
      by (apply Z.mul_lt_mono_pos_r; lia).
    replace (dx + ex + f32_scale) with (dx + (ex + f32_scale)) by lia.
    rewrite (Z.pow_add_r 2 dx (ex + f32_scale)) by (unfold f32_scale; lia).
    lia. }
  assert (Hmag : dy + ey <= dx + ex)
    by (apply magnitude_le; [lia | exact Hup]).
  destruct (Z.eq_dec (dy + ey) (dx + ex)) as [Heq|Hne].
  - (* the same binade: [Y] is on the grid *)
    assert (Eg : g = 2 ^ (ey + f32_scale)).
    { subst g. by rewrite <- Heq, Hc. }
    rewrite Eg in *.
    assert (Z.pos my <= X / 2 ^ (ey + f32_scale)).
    { apply Z.div_le_lower_bound; [done|]. rewrite Z.mul_comm. exact Hle. }
    subst Y. apply Z.mul_le_mono_nonneg_r; lia.
  - (* a binade below: the start of [X]'s binade lies between *)
    set (B := 2 ^ (dx + ex - 1 + f32_scale)).
    assert (HYB : Y < B).
    { assert (H1 : Y < 2 ^ dy * 2 ^ (ey + f32_scale))
        by (apply Z.mul_lt_mono_pos_r; lia).
      rewrite <- (Z.pow_add_r 2 dy (ey + f32_scale)) in H1
        by (unfold f32_scale; lia).
      assert (2 ^ (dy + (ey + f32_scale)) <= B)
        by (apply Z.pow_le_mono_r; unfold f32_scale; lia).
      lia. }
    assert (HBX : B <= X).
    { subst B.
      replace (dx + ex - 1 + f32_scale) with (dx - 1 + (ex + f32_scale))
        by lia.
      rewrite (Z.pow_add_r 2 (dx - 1) (ex + f32_scale))
        by (unfold f32_scale; lia).
      apply Z.mul_le_mono_nonneg_r; lia. }
    assert (HB : B = 2 ^ (dx + ex - 1 - f32_fexp (dx + ex)) * g).
    { subst B g. rewrite <- Z.pow_add_r;
        [f_equal; lia | rewrite f32_fexp_eq; lia | unfold f32_scale; lia]. }
    assert (2 ^ (dx + ex - 1 - f32_fexp (dx + ex)) <= X / g).
    { apply Z.div_le_lower_bound; [done|]. rewrite Z.mul_comm, <- HB. exact HBX. }
    assert (B <= X / g * g)
      by (rewrite HB; apply Z.mul_le_mono_nonneg_r; lia).
    lia.
Qed.

Lemma rnd_floor_le V X g : 0 < g -> rnd_spec V X g -> X / g * g <= V.
Proof. intros Hg [->|[-> _]]; lia. Qed.

(** [<=] on two floats that are zero or positive is [<=] on their values. *)
Lemma f32_le_values a b va vb :
  f32_rep a false va -> f32_rep b false vb -> va <= vb -> f32_le a b = true.
Proof.
  intros [[-> ->]|(ma & ea & -> & Hba & ->)]
         [[-> ->]|(mb & eb & -> & Hbb & ->)] Hle; try done.
  - exfalso. pose proof (f32_bounded_elim _ _ Hba) as (_ & He & _).
    assert (0 < 2 ^ (ea + f32_scale))
      by (apply pow2_pos; unfold f32_scale; lia).
    nia.
  - pose proof (f32_bounded_elim _ _ Hba) as (Hca & Hea & _).
    pose proof (f32_bounded_elim _ _ Hbb) as (Hcb & Heb & _).
    pose proof (grid_le ma ea mb eb Hbb ltac:(lia) Hle) as Hg.
    rewrite Hca in Hg.
    unfold f32_le, SFleb, SFcompare.
    destruct (Z.compare_spec ea eb) as [->|Hlt|Hgt]; [|done|lia].
    rewrite compare_cont_Eq.
    assert (Hm : Z.pos ma <= Z.pos mb).
    { apply Z.mul_le_mono_pos_r in Hle; [done|].
      apply pow2_pos. unfold f32_scale. lia. }
    destruct (Pos.compare_spec ma mb) as [?|?|?]; [done|done|lia].
Qed.

(** [l + p] for a level [l] and a decrement [p] not larger than [l]: not
    above [l]. *)
Lemma f32_add_neg_le ml el p vp :
  f32_bounded ml el = true ->
  Z.pos ml * 2 ^ (el + f32_scale) <= f32_one_val ->
  f32_rep p true vp -> 0 <= vp <= Z.pos ml * 2 ^ (el + f32_scale) ->
  ∃ V, f32_rep (f32_add (S754_finite false ml el) p) false V
       ∧ V <= Z.pos ml * 2 ^ (el + f32_scale).
Proof.
  intros Hbl Hl [[-> ->]|(mp & ep & -> & Hbp & ->)] Hp.
  - eexists. split; [right; by eauto | lia].
  - pose proof (f32_bounded_elim _ _ Hbl) as (_ & Hel & _).
    pose proof (f32_bounded_elim _ _ Hbp) as (_ & Hep & _).
    unfold f32_add, SFadd, cond_Zopp.
    change (binary_normalize f32_prec f32_emax) with f32_normalize.
    set (ez := Z.min el ep).
    rewrite !shl_align_value by (subst ez; lia).
    set (z := Z.pos ml * 2 ^ (el - ez) + - (Z.pos mp * 2 ^ (ep - ez))).
    assert (Hk : 0 < 2 ^ (ez + f32_scale))
      by (apply pow2_pos; unfold f32_scale; subst ez; lia).
    assert (HX : z * 2 ^ (ez + f32_scale)
                 = Z.pos ml * 2 ^ (el + f32_scale)
                   - Z.pos mp * 2 ^ (ep + f32_scale)).
    { subst z. rewrite Z.mul_add_distr_r, Z.mul_opp_l.
      rewrite !align_scale by (subst ez; lia). lia. }
    assert (Hz : 0 <= z) by nia.
    assert (Hmp : 0 < Z.pos mp * 2 ^ (ep + f32_scale)).
    { apply Z.mul_pos_pos; [lia|]. apply pow2_pos. unfold f32_scale. lia. }
    assert (Hone : f32_one_val < 2 ^ (1 + f32_scale)) by reflexivity.
    destruct (f32_normalize_spec z ez) as (V & Hrep & Hspec);
      [subst ez; lia | done | lia |].
    exists V. split; [exact Hrep|].
    destruct Hspec as [[_ ->]|(mz & Ez & Hspec)]; [lia|].
    assert (Hg : 0 < 2 ^ (f32_fexp (Z.pos (digits2_pos mz) + ez) + f32_scale)).
    { apply pow2_pos. rewrite f32_fexp_eq. unfold f32_scale. lia. }
    apply (rnd_le V _ _ _ Hg Hspec); [lia|].
    apply grid_divides; [done | subst ez; lia |]. rewrite <- Ez. lia.
Qed.

(** [l + p] for a level [l] and an increment [p]: not below [l]. *)
Lemma f32_add_unit_ge l p vl vp :
  f32_rep l false vl -> f32_rep p false vp ->
  0 <= vl <= f32_one_val -> 0 <= vp <= f32_one_val ->
  vl + vp < f32_one_val + f32_ulp_val ->
  ∃ V, f32_rep (f32_add l p) false V ∧ vl <= V.
Proof.
  intros [[-> ->]|(ml & el & -> & Hbl & ->)]
         [[-> ->]|(mp & ep & -> & Hbp & ->)] Hl Hp Hsum.
  - exists 0. split; [by left | lia].
  - eexists. split; [right; by eauto | lia].
  - eexists. split; [right; by eauto | lia].
  - pose proof (f32_bounded_elim _ _ Hbl) as (_ & Hel & _).
    pose proof (f32_bounded_elim _ _ Hbp) as (_ & Hep & _).
    unfold f32_add, SFadd, cond_Zopp.
    change (binary_normalize f32_prec f32_emax) with f32_normalize.
    set (ez := Z.min el ep).
    rewrite !shl_align_value by (subst ez; lia).
    set (z := Z.pos ml * 2 ^ (el - ez) + Z.pos mp * 2 ^ (ep - ez)).
    assert (HX : z * 2 ^ (ez + f32_scale)
                 = Z.pos ml * 2 ^ (el + f32_scale)
                   + Z.pos mp * 2 ^ (ep + f32_scale)).
    { subst z. rewrite Z.mul_add_distr_r.
      by rewrite !align_scale by (subst ez; lia). }
    assert (Hz : 0 <= z).
    { subst z. apply Z.add_nonneg_nonneg;
        (apply Z.mul_nonneg_nonneg; [lia | apply Z.pow_nonneg; lia]). }
    assert (Hone : f32_one_val + f32_ulp_val < 2 ^ (1 + f32_scale))
      by reflexivity.
    assert (Hml : 0 < Z.pos ml * 2 ^ (el + f32_scale)).
    { apply Z.mul_pos_pos; [lia|]. apply pow2_pos. unfold f32_scale. lia. }
    destruct (f32_normalize_spec z ez) as (V & Hrep & Hspec);
      [subst ez; lia | done | lia |].
    exists V. split; [exact Hrep|].
    destruct Hspec as [[Ez _]|(mz & Ez & Hspec)]; [rewrite Ez in HX; lia|].
    assert (Hg : 0 < 2 ^ (f32_fexp (Z.pos (digits2_pos mz) + ez) + f32_scale)).
    { apply pow2_pos. rewrite f32_fexp_eq. unfold f32_scale. lia. }
    pose proof (rnd_floor_le V _ _ Hg Hspec) as Hfloor.
    pose proof (grid_floor_ge mz ez ml el Hbl ltac:(subst ez; lia)) as Hgrid.
    simpl in Hgrid. rewrite <- Ez in Hgrid. lia.
Qed.

(** One update of the filter moves the level toward the sample. *)
Lemma filter_update_toward a raw l :
  unit_factor a -> unit_level l ->
  let l' := f32_add l (f32_mul (f32_sub (float_of_level raw) l) a) in
  if raw then f32_le l l' = true else f32_le l' l = true.
Proof.
  intros (ma & ea & -> & Hba & Ha) (v & Hl & Hv). destruct raw; simpl.
  - (* the sample is 1.0 *)
    destruct (f32_sub_one_unit l v Hl Hv) as (Vd & Hd & HVd & Hclose).
    assert (Hp : ∃ Vp, f32_rep (f32_mul (f32_sub f32_one l)
                                  (S754_finite false ma ea)) false Vp
                       ∧ 0 <= Vp <= Vd).
    { destruct Hd as [[-> ->]|(md & ed & -> & Hbd & ->)].
      - exists 0. split; [by left | lia].
      - apply f32_mul_unit; [done | done | lia | done]. }
    destruct Hp as (Vp & Hp & HVp).
    destruct (f32_add_unit_ge l _ v Vp Hl Hp) as (V & HV & Hge);
      [done | lia | lia |].
    by apply (f32_le_values _ _ v V).
  - (* the sample is 0.0 *)
    destruct Hl as [[-> ->]|(m & e & -> & Hb & ->)]; [done|].
    change (f32_sub f32_zero (S754_finite false m e))
      with (S754_finite true m e).
    destruct (f32_mul_unit true m e ma ea) as (Vp & Hp & HVp);
      [done | done | lia | done |].
    destruct (f32_add_neg_le m e _ Vp Hb ltac:(lia) Hp HVp) as (V & HV & Hle).
    apply (f32_le_values _ _ V (Z.pos m * 2 ^ (e + f32_scale)));
      [done | right; by eauto | done].
Qed.

(** X7.  An update of the filter moves the level toward the sample and never
    away from it: with LOW_PASS above 0 and not above 1 and the level at 0
    to start with, after any samples a raised sample does not lower the
    level and a lowered one does not raise it, in binary32 arithmetic with
    its rounding after each operation. *)
Theorem filter_moves_toward_sample cfg raws raw s0 :
  f32_valid (LOW_PASS cfg) = true →
  f32_lt f32_zero (LOW_PASS cfg) = true →
  f32_le (LOW_PASS cfg) f32_one = true →
  tiltLevel s0 = f32_zero →
  let s := tilt_samples cfg raws s0 in
  let level' := tiltLevel (isTilted cfg raw s).2 in
  if raw then f32_le (tiltLevel s) level' = true
  else f32_le level' (tiltLevel s) = true.
Proof.
  intros Hvalid Hpos Hle Hstart s level'.
  apply (filter_update_toward (LOW_PASS cfg) raw (tiltLevel s)).
  - by apply unit_factor_intro.
  - apply tilt_samples_unit; [by apply unit_factor_intro|].
    rewrite Hstart. apply unit_level_zero.
Qed.

Lemma filter_moves_toward_sample_witness :
  f32_le
    (tiltLevel (isTilted sketch_config false
                  (tilt_samples sketch_config [true; true] power_on)).2)
    (tiltLevel (tilt_samples sketch_config [true; true] power_on))
  = true.
Proof.
  apply (filter_moves_toward_sample sketch_config [true; true] false power_on);
    reflexivity.
Defined.

(** ** Configurations the sketch does not guard against *)



(** X9.  A level that is not a number stays so and freezes the answer of
    [isTilted]: every comparison with the thresholds fails, so [tilted]
    keeps its value whatever the samples are.  A smoothing factor that is
    infinite gets the filter there with two raised samples. *)
Theorem nan_level_freezes_answer cfg raws : ∀ s,
  tiltLevel s = S754_nan →
  tiltLevel (tilt_samples cfg raws s) = S754_nan
  ∧ tilted (tilt_samples cfg raws s) = tilted s.
Proof.
  induction raws as [|raw rest IH]; intros s Hnan; [done|].
  assert (Hlvl : tiltLevel (isTilted cfg raw s).2 = S754_nan).
  { simpl. rewrite Hnan. by destruct raw. }
  assert (Htilt : tilted (isTilted cfg raw s).2 = tilted s).
  { simpl in *. rewrite Hlvl.
    assert (Hhigh : f32_ge S754_nan (THRESHOLD_HIGH cfg) = false)
      by (by destruct (THRESHOLD_HIGH cfg) as [[]|[]| |[]]).
    rewrite Hhigh. change (f32_le S754_nan (THRESHOLD_LOW cfg)) with false.
    by rewrite !andb_false_r. }
  destruct (IH _ Hlvl) as [IH1 IH2]. split; [exact IH1|].
  exact (eq_trans IH2 Htilt).
Qed.

Lemma nan_level_freezes_answer_witness :
  tiltLevel (tilt_samples infinite_factor_config [false; false; true] filter_lost)
  = S754_nan
  ∧ tilted (tilt_samples infinite_factor_config [false; false; true] filter_lost)
    = tilted filter_lost.
Proof. apply nan_level_freezes_answer. reflexivity. Defined.
